(** * jsonld.js: a shallow embedding of the JSON-LD processor

    The development follows [src/js/jsonld.js].  JavaScript values are a
    tagged variant, objects are association lists in insertion order with
    unique keys, exceptions are an explicit outcome, and the calls made to
    the caller-supplied completion callback are recorded in a log.

    Scope of the value model:
    - strings are sequences of 8-bit character codes;
    - numbers are the integer-valued ones ([Z]); a number with a fractional
      part cannot be written in the model, so [_isDouble] is false on every
      modelled number;
    - objects hold their own properties only: members inherited from
      [Object.prototype] ([constructor], [toString], ...) are not looked
      up.  A statement about code that looks a name up says, as a
      hypothesis, that the name is not one of them;
    - arrays and objects are modelled by value.  Where the source compares
      two of them with [===] (reference identity) the model gives no
      verdict ([Undetermined]);
    - [for .. in] visits keys in insertion order.  A statement that depends
      on the order says, as a hypothesis, that no key starts with a
      digit. *)

From Stdlib Require Import String Ascii List ZArith Bool Lia Permutation.
From Stdlib Require Import DecimalString.
Import ListNotations.

Local Open Scope string_scope.
Local Open Scope list_scope.

(** ** Values *)

Set Warnings "-register-all".

Inductive value : Type :=
| VUndef
| VNull
| VBool (b : bool)
| VNum (n : Z)
| VStr (s : string)
| VArr (l : list value)
| VObj (m : list (string * value))
(* an instance of [JsonLdError]: msg, type, details *)
| VJsonLdError (msg type : string) (details : value)
(* an error raised by the engine itself: TypeError, ReferenceError *)
| VNativeError (name : string)
(* a function object; its body is not a value of the model *)
| VFun.

Definition obj := list (string * value).

(** ** Outcomes of synchronous code *)

Inductive outcome (A : Type) : Type :=
| Ret (a : A)
| Throw (e : value)
(* no verdict: the fuel ran out, or the source relies on reference
   identity or on an array used as a property name *)
| Undetermined.

Arguments Ret {A} a.
Arguments Throw {A} e.
Arguments Undetermined {A}.

Definition bind {A B} (x : outcome A) (f : A -> outcome B) : outcome B :=
  match x with
  | Ret a => f a
  | Throw e => Throw e
  | Undetermined => Undetermined
  end.

Declare Scope js_scope.
Delimit Scope js_scope with js.
Notation "x <- c ;; k" := (bind c (fun x => k))
  (at level 61, c at next level, right associativity) : js_scope.
Local Open Scope js_scope.

Definition TypeError : value := VNativeError "TypeError".
Definition ReferenceError : value := VNativeError "ReferenceError".

(** ** Objects as ordered maps *)

Fixpoint obj_get (m : obj) (k : string) : value :=
  match m with
  | [] => VUndef
  | (k', v) :: m' => if k' =? k then v else obj_get m' k
  end.

(* [k in m] *)
Fixpoint obj_has (m : obj) (k : string) : bool :=
  match m with
  | [] => false
  | (k', _) :: m' => (k' =? k) || obj_has m' k
  end.

(* [m[k] = v]: an existing key keeps its place, a new one goes last *)
Fixpoint obj_set (m : obj) (k : string) (v : value) : obj :=
  match m with
  | [] => [(k, v)]
  | (k', v') :: m' =>
      if k' =? k then (k, v) :: m' else (k', v') :: obj_set m' k v
  end.

(* [delete m[k]] *)
Fixpoint obj_delete (m : obj) (k : string) : obj :=
  match m with
  | [] => []
  | (k', v') :: m' =>
      if k' =? k then m' else (k', v') :: obj_delete m' k
  end.

Definition obj_keys (m : obj) : list string := map fst m.

(** ** Truthiness and the type tests of the source *)

Definition truthy (v : value) : bool :=
  match v with
  | VUndef | VNull => false
  | VBool b => b
  | VNum n => negb (n =? 0)%Z
  | VStr s => negb (s =? "")
  | _ => true
  end.

(* [input && input.constructor === Object], read as a condition *)
Definition _isObject (input : value) : bool :=
  match input with VObj _ => true | _ => false end.

Definition _isArray (input : value) : bool :=
  match input with VArr _ => true | _ => false end.

(* the empty string is falsy, so it fails the test *)
Definition _isString (input : value) : bool :=
  match input with VStr s => negb (s =? "") | _ => false end.

Definition _isNumber (input : value) : bool :=
  match input with VNum n => negb (n =? 0)%Z | _ => false end.

Definition _isBoolean (input : value) : bool :=
  match input with VBool b => b | _ => false end.

Definition _isUndefined (input : value) : bool :=
  match input with VUndef => true | _ => false end.

(* ['' + input] never contains a '.' for an integer-valued number *)
Definition _isDouble (input : value) : bool := false.

Definition _isFrameKeyword (key : string) : bool :=
  (key =? "@embed") || (key =? "@explicit") ||
  (key =? "@default") || (key =? "@omitDefault").

(* [a || b] *)
Definition js_or (a b : value) : value := if truthy a then a else b.

(* [a === b]; [None] when both sides are references *)
Definition strict_eq (a b : value) : option bool :=
  match a, b with
  | VUndef, VUndef => Some true
  | VNull, VNull => Some true
  | VBool x, VBool y => Some (Bool.eqb x y)
  | VNum x, VNum y => Some (x =? y)%Z
  | VStr x, VStr y => Some (x =? y)
  | VArr _, VArr _ => None
  | VObj _, VObj _ => None
  | VJsonLdError _ _ _, VJsonLdError _ _ _ => None
  | VNativeError _, VNativeError _ => None
  | VFun, VFun => None
  | _, _ => Some false
  end.

Definition lift_eq (r : option bool) : outcome bool :=
  match r with Some b => Ret b | None => Undetermined end.

(** ** Strings *)

Definition is_word_char (c : ascii) : bool :=
  let n := nat_of_ascii c in
  (((48 <=? n) && (n <=? 57)) || ((65 <=? n) && (n <=? 90)) ||
   ((97 <=? n) && (n <=? 122)) || (n =? 95))%nat.

(* [\s] within the 8-bit range *)
Definition is_space_char (c : ascii) : bool :=
  let n := nat_of_ascii c in
  (((9 <=? n) && (n <=? 13)) || (n =? 32) || (n =? 160))%nat.

(* a line terminator is what [.] refuses *)
Definition is_line_terminator (c : ascii) : bool :=
  let n := nat_of_ascii c in ((n =? 10) || (n =? 13))%nat.

(* [s.indexOf(':')] *)
Fixpoint index_of_colon (s : string) : option nat :=
  match s with
  | EmptyString => None
  | String c s' =>
      if Ascii.eqb c ":" then Some 0
      else match index_of_colon s' with
           | Some i => Some (S i)
           | None => None
           end
  end.

(* [s.substr(n)] *)
Fixpoint drop (n : nat) (s : string) : string :=
  match n, s with
  | 0, _ => s
  | S n', String _ s' => drop n' s'
  | S _, EmptyString => EmptyString
  end.

(* [s.substr(0, n)] *)
Fixpoint take (n : nat) (s : string) : string :=
  match n, s with
  | 0, _ => EmptyString
  | S n', String c s' => String c (take n' s')
  | S _, EmptyString => EmptyString
  end.

(* the remainder of [s] after the prefix [p], when [s] starts with [p] *)
Fixpoint strip_prefix (p s : string) : option string :=
  match p, s with
  | EmptyString, _ => Some s
  | String a p', String b s' =>
      if Ascii.eqb a b then strip_prefix p' s' else None
  | String _ _, EmptyString => None
  end.

(* /(\w+):\/\/(.+)/ finds a match: a word character, then "://", then a
   character that is not a line terminator, anywhere in the string *)
Fixpoint _isAbsoluteIri (value : string) : bool :=
  match value with
  | EmptyString => false
  | String c rest =>
      (is_word_char c &&
       match strip_prefix "://" rest with
       | Some (String d _) => negb (is_line_terminator d)
       | _ => false
       end)
      || _isAbsoluteIri rest
  end.

Definition followed_by_nonspace (scheme s : string) : bool :=
  match strip_prefix scheme s with
  | Some (String d _) => negb (is_space_char d)
  | _ => false
  end.

(* the URL pattern of [_resolveUrls]: every group after the scheme is
   optional except (\S+), so the pattern matches exactly when "http://" or
   "https://" occurs somewhere, directly followed by a non-space
   character *)
Fixpoint url_regex_test (url : string) : bool :=
  match url with
  | EmptyString => false
  | String _ rest =>
      followed_by_nonspace "http://" url ||
      followed_by_nonspace "https://" url ||
      url_regex_test rest
  end.

(* ['' + v] and the conversion of a value used as a property name *)
Definition js_to_string (v : value) : outcome string :=
  match v with
  | VUndef => Ret "undefined"
  | VNull => Ret "null"
  | VBool true => Ret "true"
  | VBool false => Ret "false"
  | VNum n => Ret (NilEmpty.string_of_int (Z.to_int n))
  | VStr s => Ret s
  | VObj _ => Ret "[object Object]"
  | VArr _ | VJsonLdError _ _ _ | VNativeError _ | VFun => Undetermined
  end.

(** ** [_clone]: a deep copy whose object keys are sorted *)

Fixpoint insert_sorted (kv : string * value) (m : obj) : obj :=
  match m with
  | [] => [kv]
  | kv' :: m' =>
      if String.leb (fst kv) (fst kv') then kv :: m
      else kv' :: insert_sorted kv m'
  end.

(* [Object.keys(value).sort()], carried out on the entries *)
Fixpoint sort_keys (m : obj) : obj :=
  match m with
  | [] => []
  | kv :: m' => insert_sorted kv (sort_keys m')
  end.

Fixpoint _clone (v : value) : value :=
  match v with
  | VObj m =>
      VObj (sort_keys
              ((fix clone_entries (m : obj) : obj :=
                  match m with
                  | [] => []
                  | (k, v) :: m' => (k, _clone v) :: clone_entries m'
                  end) m))
  | VArr l => VArr (map _clone l)
  | _ => v
  end.

(** ** Loops *)

(* the body of a [for] loop run over a list, stopping at the first
   exception *)
Fixpoint foldM {A B : Type} (f : B -> A -> outcome B) (l : list A) (b : B)
  : outcome B :=
  match l with
  | [] => Ret b
  | a :: l' => b' <- f b a ;; foldM f l' b'
  end.

Definition JsonLdError (msg type : string) (details : value) : value :=
  VJsonLdError msg type details.

(** ** The utility API: [hasProperty], [hasValue], [addValue], [getValues] *)

Definition hasProperty (subject : obj) (property : string) : bool :=
  if obj_has subject property then
    match obj_get subject property with
    | VArr l => negb (Nat.eqb (List.length l) 0)
    | _ => true
    end
  else false.

(* [indexOf] is not declared anywhere in the file, so the array branch
   raises a ReferenceError when the call is evaluated *)
Definition hasValue (subject : obj) (property : string) (val : value)
  : outcome bool :=
  if hasProperty subject property then
    let v := obj_get subject property in
    if _isArray v then Throw ReferenceError
    else if negb (_isArray val) then lift_eq (strict_eq v val)
    else Ret false
  else Ret false.

(* the subject is updated in place by the source; the model returns it *)
Definition addValue (subject : obj) (property : string) (val : value)
    (propertyIsArray : value) : outcome obj :=
  let propertyIsArray :=
    if _isUndefined propertyIsArray then false else truthy propertyIsArray in
  if obj_has subject property then
    has <- hasValue subject property val ;;
    let hasValue := negb has in
    let subject :=
      if negb (_isArray (obj_get subject property)) &&
         (negb hasValue || propertyIsArray)
      then obj_set subject property (VArr [obj_get subject property])
      else subject in
    if negb hasValue then
      match obj_get subject property with
      | VArr l => Ret (obj_set subject property (VArr (l ++ [val])))
      | _ => Throw TypeError
      end
    else Ret subject
  else
    Ret (obj_set subject property
           (if propertyIsArray then VArr [val] else val)).

Definition getValues (subject : obj) (property : string) : value :=
  let rval := js_or (obj_get subject property) (VArr []) in
  if negb (_isArray rval) then VArr [rval] else rval.

Definition removeProperty (subject : obj) (property : string) : obj :=
  obj_delete subject property.

(** ** Keywords *)

Definition builtin_keywords : obj :=
  [ ("@container", VStr "@container"); ("@graph", VStr "@graph");
    ("@id", VStr "@id"); ("@language", VStr "@language");
    ("@list", VStr "@list"); ("@set", VStr "@set");
    ("@type", VStr "@type"); ("@value", VStr "@value") ].

Definition _getKeywords (ctx : obj) : obj :=
  let keywords :=
    fold_left
      (fun (keywords : obj) (kv : string * value) =>
         match snd kv with
         | VStr s =>
             if _isString (VStr s) && obj_has builtin_keywords s
             then obj_set keywords s (VStr (fst kv))
             else keywords
         | _ => keywords
         end) ctx [] in
  fold_left (fun (rval : obj) (kv : string * value) =>
               obj_set rval (fst kv) (snd kv)) keywords builtin_keywords.

(* [for(var key in keywords) if(term === keywords[key]) { rval = key; break; }] *)
Fixpoint keyword_of_alias (keywords : obj) (term : string) : option string :=
  match keywords with
  | [] => None
  | (key, VStr alias) :: rest =>
      if term =? alias then Some key else keyword_of_alias rest term
  | _ :: rest => keyword_of_alias rest term
  end.

(** ** [getContextValue] and [_expandTerm] *)

(* [jsonld.getContextValue(key)]: with the key as only argument, [ctx] is
   bound to that string and [key] and [type] are undefined; a string has no
   property named "undefined", so the result is [undefined || null] *)
Definition getContextValue1 (ctx : string) : value := js_or VUndef VNull.

(* the body of [getContextValue] with [type] given; [expandTerm] stands for
   the call [_expandTerm(ctx, rval)].  The [throw] of the last branch
   builds its details from [ctx2], which is not a variable in scope, so
   what is raised there is a ReferenceError *)
Definition getContextValue_with (expandTerm : obj -> value -> outcome value)
    (ctx : obj) (key : value) (type : string) (expand : bool)
  : outcome value :=
  k <- js_to_string key ;;
  if obj_has ctx k then
    rval <- match obj_get ctx k with
            | VObj entry =>
                Ret (if obj_has entry type then obj_get entry type else VNull)
            | v =>
                if (type =? "@id") && _isString v then Ret v
                else Throw ReferenceError
            end ;;
    if expand then expandTerm ctx rval else Ret rval
  else Ret VNull.

Definition CyclicalContext (ctx : obj) (term : value) : value :=
  JsonLdError "Cyclical term definition detected in context."
    "jsonld.CyclicalContext" (VObj [("context", VObj ctx); ("term", term)]).

(* the [while(recurse !== rval)] loop of [_expandTerm]; [step] is
   [_expandTerm(ctx, ., true)].  [rval] is not assigned inside the loop *)
Fixpoint expand_loop (n : nat) (step : value -> outcome value) (ctx : obj)
    (rval : value) (cycles : obj) (recurse : value) : outcome value :=
  same <- lift_eq (strict_eq recurse rval) ;;
  if same then Ret recurse
  else
    match n with
    | 0 => Undetermined
    | S n' =>
        k <- js_to_string rval ;;
        if obj_has cycles k then Throw (CyclicalContext ctx rval)
        else
          recurse <- step rval ;;
          expand_loop n' step ctx rval (obj_set cycles k (VBool true)) recurse
    end.

Fixpoint _expandTerm (fuel : nat) (ctx : obj) (term : value) (deep : bool)
  : outcome value :=
  match fuel with
  | 0 => Undetermined
  | S fuel' =>
      let getContextValue :=
        getContextValue_with (fun c t => _expandTerm fuel' c t false) in
      match term with
      | VStr t =>
          rval <-
            match index_of_colon t with
            | Some idx =>
                let prefix := take idx t in
                if obj_has ctx prefix then
                  iri <- getContextValue ctx (VStr prefix) "@id" true ;;
                  s <- js_to_string iri ;;
                  Ret (VStr (s ++ drop (S idx) t))
                else Ret term
            | None =>
                if obj_has ctx t then
                  getContextValue ctx term "@id" false
                else
                  match keyword_of_alias (_getKeywords ctx) t with
                  | Some key => Ret (VStr key)
                  | None => Ret term
                  end
            end ;;
          if deep then Ret rval
          else
            expand_loop fuel' (fun r => _expandTerm fuel' ctx r true)
              ctx rval [] VNull
      (* an array has an [indexOf] of its own and is then used as a
         property name *)
      | VArr _ => Undetermined
      (* [term.indexOf] on null, undefined, or a value without [indexOf] *)
      | _ => Throw TypeError
      end
  end.

Definition getContextValue (fuel : nat) :=
  getContextValue_with (fun c t => _expandTerm fuel c t false).

(** ** [_compactIri] *)

(* [key.length > 0 && key[0] !== '@'] *)
Definition is_term_key (key : string) : bool :=
  match key with
  | EmptyString => false
  | String c _ => negb (Ascii.eqb c "@")
  end.

(* the first loop: a term whose [@id] is the IRI *)
Fixpoint compact_to_term (fuel : nat) (ctx : obj) (iri : value)
    (entries : obj) : outcome (option string) :=
  match entries with
  | [] => Ret None
  | (key, _) :: rest =>
      if is_term_key key then
        id <- getContextValue fuel ctx (VStr key) "@id" true ;;
        same <- lift_eq (strict_eq iri id) ;;
        if same then Ret (Some key) else compact_to_term fuel ctx iri rest
      else compact_to_term fuel ctx iri rest
  end.

(* the second loop: a term whose [@id] is a strict prefix of the IRI *)
Fixpoint compact_to_prefix (fuel : nat) (ctx : obj) (iri : value)
    (entries : obj) : outcome (option string) :=
  match entries with
  | [] => Ret None
  | (key, _) :: rest =>
      if is_term_key key then
        ctxIri <- getContextValue fuel ctx (VStr key) "@id" true ;;
        isNull <- lift_eq (strict_eq ctxIri VNull) ;;
        if isNull then compact_to_prefix fuel ctx iri rest
        else
          match iri with
          | VStr i =>
              c <- js_to_string ctxIri ;;
              match strip_prefix c i, ctxIri with
              | Some (String a suffix), VStr _ =>
                  Ret (Some (key ++ ":" ++ String a suffix)%string)
              | _, _ => compact_to_prefix fuel ctx iri rest
              end
          | VArr _ => Undetermined
          | _ => Throw TypeError
          end
      else compact_to_prefix fuel ctx iri rest
  end.

Definition _compactIri (fuel : nat) (ctx : obj) (iri : value)
  : outcome value :=
  term <- compact_to_term fuel ctx iri ctx ;;
  match term with
  | Some key => Ret (VStr key)
  | None =>
      let keywords := _getKeywords ctx in
      k <- js_to_string iri ;;
      if obj_has keywords k then Ret (obj_get keywords k)
      else
        p <- compact_to_prefix fuel ctx iri ctx ;;
        match p with
        | Some s => Ret (VStr s)
        | None => Ret iri
        end
  end.

(** ** Shapes of values *)

Definition _isSubject (v : value) : bool :=
  match v with
  | VObj m =>
      if negb (obj_has m "@value" || obj_has m "@set" || obj_has m "@list")
      then
        let keyCount := List.length (obj_keys m) in
        Nat.ltb 1 keyCount || negb (obj_has m "@id")
      else false
  | _ => false
  end.

Definition _isSetValue (v : value) : bool :=
  match v with VObj m => obj_has m "@set" | _ => false end.

Definition _isListValue (v : value) : bool :=
  match v with VObj m => obj_has m "@list" | _ => false end.

(* [v[k]] for a truthy [v] and a name [k] that is neither an index nor
   [length]: only an object can hold it *)
Definition get_member (v : value) (k : string) : value :=
  match v with VObj m => obj_get m k | _ => VUndef end.

Definition SyntaxError (msg : string) : value :=
  VJsonLdError msg "jsonld.SyntaxError" VUndef.

Definition dquote : string := String (ascii_of_nat 34) EmptyString.

Definition list_not_array : value :=
  SyntaxError
    ("Invalid JSON-LD syntax; " ++ dquote ++ "@list" ++ dquote ++
     " value must be an array or null.")%string.

Definition array_of_arrays : value :=
  SyntaxError "Invalid JSON-LD syntax; arrays of arrays are not permitted.".

(** ** [Processor.prototype.mergeContexts] *)

(* [for(var mkey in rval)]: delete the first entry whose [@id] is the new
   IRI, then [break] *)
Fixpoint remove_old_entry (fuel : nat) (rval : obj) (newIri : value)
    (entries : obj) : outcome obj :=
  match entries with
  | [] => Ret rval
  | (mkey, _) :: rest =>
      id <- getContextValue fuel rval (VStr mkey) "@id" true ;;
      same <- lift_eq (strict_eq newIri id) ;;
      if same then Ret (obj_delete rval mkey)
      else remove_old_entry fuel rval newIri rest
  end.

(* the first [for(var key in ctx2)] loop *)
Definition remove_replaced (fuel : nat) (ctx2 : obj) (rval : obj)
  : outcome obj :=
  foldM (fun (rval : obj) (kv : string * value) =>
           newIri <- getContextValue fuel ctx2 (VStr (fst kv)) "@id" true ;;
           isNull <- lift_eq (strict_eq newIri VNull) ;;
           if isNull then Ret rval
           else remove_old_entry fuel rval newIri rval)
        ctx2 rval.

(* the second loop: [rval[key] = ctx2[key]] *)
Definition overlay (ctx2 : obj) (rval : obj) : obj :=
  fold_left (fun (rval : obj) (kv : string * value) =>
               obj_set rval (fst kv) (snd kv)) ctx2 rval.

(* the branch taken when [ctx2] is not an array *)
Definition merge_map (fuel : nat) (rval : value) (ctx2 : value)
  : outcome value :=
  match ctx2 with
  | VObj m2 =>
      match rval with
      | VObj r =>
          r' <- remove_replaced fuel m2 r ;;
          Ret (VObj (overlay m2 r'))
      | VUndef | VNull =>
          (* nothing to scan; the first assignment fails *)
          _ <- foldM (fun (u : unit) (kv : string * value) =>
                        _ <- getContextValue fuel m2 (VStr (fst kv)) "@id" true ;;
                        Ret tt) m2 tt ;;
          match m2 with [] => Ret rval | _ => Throw TypeError end
      | VNum _ | VBool _ | VStr EmptyString =>
          (* nothing to scan; assignments to a primitive are dropped *)
          _ <- foldM (fun (u : unit) (kv : string * value) =>
                        _ <- getContextValue fuel m2 (VStr (fst kv)) "@id" true ;;
                        Ret tt) m2 tt ;;
          Ret rval
      | VStr _ =>
          (* scanning a string applies [in] to a primitive *)
          _ <- foldM (fun (u : unit) (kv : string * value) =>
                        newIri <- getContextValue fuel m2 (VStr (fst kv)) "@id" true ;;
                        isNull <- lift_eq (strict_eq newIri VNull) ;;
                        if isNull then Ret tt else Throw TypeError) m2 tt ;;
          Ret rval
      | _ => Undetermined
      end
  (* [for .. in] over a non-empty string yields its indices, and
     [getContextValue] then applies [in] to that string *)
  | VStr EmptyString => Ret rval
  | VStr _ => Throw TypeError
  (* nothing to enumerate *)
  | VUndef | VNull | VNum _ | VBool _ | VFun => Ret rval
  | _ => Undetermined
  end.

Fixpoint mergeContexts (fuel : nat) (ctx1 ctx2 : value) : outcome value :=
  match fuel with
  | 0 => Undetermined
  | S fuel' =>
      ctx1 <- (if _isArray ctx1 then mergeContexts fuel' (VObj []) ctx1
               else Ret ctx1) ;;
      let rval := _clone ctx1 in
      match ctx2 with
      | VArr l =>
          foldM (fun rval c => mergeContexts fuel' rval c) l rval
      | _ => merge_map fuel' rval ctx2
      end
  end.

(** ** [expandValue] and [compactValue] *)

(* [prop === '@id' || prop === '@type'] *)
Definition is_id_or_type (prop : value) : bool :=
  match prop with
  | VStr p => (p =? "@id") || (p =? "@type")
  | _ => false
  end.

Definition expandValue (fuel : nat) (ctx : obj) (property : value)
    (val : value) : outcome value :=
  prop <- _expandTerm fuel ctx property false ;;
  if is_id_or_type prop then _expandTerm fuel ctx val false
  else
    prop <- _compactIri fuel ctx prop ;;
    type <- getContextValue fuel ctx prop "@type" true ;;
    (* [_isDouble(value)] is false on every modelled number *)
    match type with
    | VStr "@id" =>
        id <- _expandTerm fuel ctx val false ;;
        Ret (VObj [("@id", id)])
    | VNull => Ret val
    | _ =>
        s <- js_to_string val ;;
        Ret (VObj [("@type", type); ("@value", VStr s)])
    end.

Definition CompactError (ctx : obj) (val : value) : value :=
  JsonLdError
    ("Cannot compact a typed value when a language is specified because " ++
     "the language information would be lost.")
    "jsonld.CompactError" (VObj [("context", VObj ctx); ("value", val)]).

Definition compactValue (fuel : nat) (ctx : obj) (property : value)
    (val : value) : outcome value :=
  match val with
  | VObj m =>
      prop <- _expandTerm fuel ctx property false ;;
      type <- (if is_id_or_type prop then Ret (VStr "@id")
               else
                 prop <- _compactIri fuel ctx prop ;;
                 getContextValue fuel ctx prop "@type" true) ;;
      match type with
      | VNull =>
          let keywords := _getKeywords ctx in
          rval <-
            foldM (fun (rval : obj) (kv : string * value) =>
                     let key := fst kv in
                     v <- (if (key =? "@id") || (key =? "@type")
                           then _compactIri fuel ctx (snd kv)
                           else Ret (snd kv)) ;;
                     k <- js_to_string (obj_get keywords key) ;;
                     Ret (obj_set rval k v)) m [] ;;
          Ret (VObj rval)
      | _ =>
          if obj_has m "@language" then Throw (CompactError ctx val)
          else
            match type with
            | VStr "@id" => _compactIri fuel ctx (obj_get m "@value")
            | _ => Ret (obj_get m "@value")
            end
      end
  | _ => Ret val
  end.

(** ** [Processor.prototype.compact] *)

Fixpoint compact (fuel : nat) (ctx : obj) (property : value) (val : value)
  : outcome value :=
  match fuel with
  | 0 => Undetermined
  | S fuel' =>
      match val with
      | VNull => Ret VNull
      | _ =>
          let isList := _isListValue val in
          if _isArray val || isList then
            (* get array from @list *)
            let val := if isList then get_member val "@list" else val in
            match val with
            | VArr l =>
                rval <-
                  foldM (fun (rval : list value) (v : value) =>
                           if _isArray v then Throw array_of_arrays
                           else
                             c <- compact fuel' ctx property v ;;
                             Ret (rval ++ [c])) l [] ;;
                container <-
                  getContextValue fuel' ctx property "@container" true ;;
                isContainer <- lift_eq (strict_eq container (VStr "@list")) ;;
                let useList := isList && negb isContainer in
                if useList then Ret (VObj [("@list", VArr rval)])
                else Ret (VArr rval)
            | VNull => Ret VNull
            | _ => Throw list_not_array
            end
          else
            match val with
            | VObj m =>
                if obj_has m "@graph" then
                  (* replace '@graph' keyword and recurse *)
                  graph <- js_to_string (obj_get (_getKeywords ctx) "@graph") ;;
                  c <- compact fuel' ctx property (obj_get m "@graph") ;;
                  Ret (VObj [(graph, c)])
                else if _isSubject val then
                  rval <-
                    foldM (fun (rval : obj) (kv : string * value) =>
                             let key := fst kv in
                             if negb (key =? "@context") then
                               (* drop unmapped and non-absolute IRI keys *)
                               if negb (truthy (getContextValue1 key)) &&
                                  negb (_isAbsoluteIri key)
                               then Ret rval
                               else
                                 p <- _compactIri fuel' ctx (VStr key) ;;
                                 v <- compact fuel' ctx (VStr key) (snd kv) ;;
                                 container <-
                                   getContextValue fuel' ctx p "@container" true ;;
                                 let isArray :=
                                   match container with
                                   | VStr c => (c =? "@set") || (c =? "@list")
                                   | _ => false
                                   end in
                                 p <- js_to_string p ;;
                                 addValue rval p v (VBool isArray)
                             else Ret rval) m [] ;;
                  Ret (VObj rval)
                else if _isSetValue val then
                  compact fuel' ctx property (obj_get m "@set")
                else compactValue fuel' ctx property val
            | _ => compactValue fuel' ctx property val
            end
      end
  end.

(** ** [Processor.prototype.expand] *)

(* [this.merge] is not a member of [Processor]: only [mergeContexts] is *)
Definition Processor_merge (ctx : obj) (ctx2 : value) : outcome obj :=
  Throw TypeError.

Fixpoint expand (fuel : nat) (ctx : obj) (property : value) (val : value)
  : outcome value :=
  match fuel with
  | 0 => Undetermined
  | S fuel' =>
      match val with
      | VNull => Ret VNull
      | _ =>
          if (match property with VNull => true | _ => false end) &&
             _isString val
          then _expandTerm fuel' ctx val false
          else
            (* [var isList = value]: every truthy value takes this branch *)
            let isList := truthy val in
            if _isArray val || isList then
              let val := if isList then get_member val "@list" else val in
              match val with
              | VArr l =>
                  rval <-
                    foldM (fun (rval : list value) (v : value) =>
                             if _isArray v then Throw array_of_arrays
                             else
                               e <- expand fuel' ctx property v ;;
                               Ret (rval ++ [e])) l [] ;;
                  container <-
                    getContextValue fuel' ctx property "@container" true ;;
                  isContainer <- lift_eq (strict_eq container (VStr "@list")) ;;
                  let isList := isList || isContainer in
                  if isList then Ret (VObj [("@list", VArr rval)])
                  else Ret (VArr rval)
              | VNull => Ret VNull
              | _ => Throw list_not_array
              end
            else if _isSubject val then
              match val with
              | VObj m =>
                  ctx <- (if obj_has m "@context"
                          then Processor_merge ctx (obj_get m "@context")
                          else Ret ctx) ;;
                  rval <-
                    foldM (fun (rval : obj) (kv : string * value) =>
                             let key := fst kv in
                             if _isFrameKeyword key then
                               addValue rval key (snd kv) (VBool true)
                             else if negb (key =? "@context") then
                               if negb (truthy (getContextValue1 key)) &&
                                  negb (_isAbsoluteIri key)
                               then Ret rval
                               else
                                 prop <- _expandTerm fuel' ctx (VStr key) false ;;
                                 v <- expand fuel' ctx (VStr key) (snd kv) ;;
                                 match v with
                                 | VNull => Ret rval
                                 | _ =>
                                     prop <- js_to_string prop ;;
                                     addValue rval prop v (VBool true)
                                 end
                             else Ret rval) m [] ;;
                  Ret (VObj rval)
              | _ => Undetermined
              end
            else if _isSetValue val then
              expand fuel' ctx property (get_member val "@set")
            else expandValue fuel' ctx property val
      end
  end.

(** ** Code that reports through a callback

    The caller's callback is the one observable effect of the public
    operations.  Each invocation is recorded with its argument list; an
    exception leaves the log as it was when it was raised. *)

Definition call := list value.
Definition proc (A : Type) := list call -> outcome A * list call.

Definition pret {A} (a : A) : proc A := fun log => (Ret a, log).

Definition pbind {A B} (x : proc A) (f : A -> proc B) : proc B :=
  fun log =>
    match x log with
    | (Ret a, log') => f a log'
    | (Throw e, log') => (Throw e, log')
    | (Undetermined, log') => (Undetermined, log')
    end.

Definition plift {A} (x : outcome A) : proc A := fun log => (x, log).

(* [try { body } catch(ex) { handler }] *)
Definition ptry {A} (body : proc A) (handler : value -> proc A) : proc A :=
  fun log =>
    match body log with
    | (Throw e, log') => handler e log'
    | r => r
    end.

Notation "x <~ c ;; k" := (pbind c (fun x => k))
  (at level 61, c at next level, right associativity) : js_scope.

Definition callback_fn := list value -> proc unit.

(* the function the caller passes in: it records its arguments *)
Definition user_callback : callback_fn :=
  fun args log => (Ret tt, log ++ [args]).

(* calling a variable that may hold [undefined] *)
Definition invoke (callback : option callback_fn) (args : list value)
  : proc unit :=
  match callback with
  | Some f => f args
  | None => plift (Throw TypeError)
  end.

Definition arg (n : nat) (args : list value) : value := nth n args VUndef.

(** ** [_resolveUrls] *)

(* what the function passed as [resolver] does when called as
   [resolver(url, function(err, ctx) {...})] *)
Inductive resolution : Type :=
(* it calls its second argument with (err, ctx) before it returns *)
| Resolves (err ctx : value)
(* it returns, and calls its second argument once the loop is over *)
| ResolvesLater (err ctx : value)
(* it never uses its second argument *)
| Runs (act : proc unit).

(* the [for(var i in ctx)] loop over an array-valued @context *)
Fixpoint findUrls_array (replace : bool) (ctx : list value) (urls : obj)
  : list value * obj :=
  match ctx with
  | [] => ([], urls)
  | VStr s :: rest =>
      if _isString (VStr s) then
        if replace then
          let (rest', urls') := findUrls_array replace rest urls in
          (obj_get urls s :: rest', urls')
        else
          let (rest', urls') :=
            findUrls_array replace rest (obj_set urls s (VObj [])) in
          (VStr s :: rest', urls')
      else
        let (rest', urls') := findUrls_array replace rest urls in
        (VStr s :: rest', urls')
  | c :: rest =>
      let (rest', urls') := findUrls_array replace rest urls in
      (c :: rest', urls')
  end.

(* [findUrls(input, replace)]: the input and the [urls] table after the
   walk.  Only the @context member of an object is looked at *)
Fixpoint findUrls (replace : bool) (input : value) (urls : obj)
  : value * obj :=
  match input with
  | VArr l =>
      let (l', urls') :=
        (fix each (l : list value) (urls : obj) : list value * obj :=
           match l with
           | [] => ([], urls)
           | x :: xs =>
               let (x', urls1) := findUrls replace x urls in
               let (xs', urls2) := each xs urls1 in
               (x' :: xs', urls2)
           end) l urls in
      (VArr l', urls')
  | VObj m =>
      if obj_has m "@context" then
        match obj_get m "@context" with
        | VArr ctx =>
            let (ctx', urls') := findUrls_array replace ctx urls in
            (VObj (obj_set m "@context" (VArr ctx')), urls')
        | VStr s =>
            if _isString (VStr s) then
              if replace then (VObj (obj_set m "@context" (obj_get urls s)), urls)
              else (input, obj_set urls s (VObj []))
            else (input, urls)
        | _ => (input, urls)
        end
      else (input, urls)
  | _ => (input, urls)
  end.

(* the variables shared by the loop and by the closures created in it;
   [url] is the loop variable, which those closures read when they run *)
Record resolve_state : Type := mk_state {
  st_input : value;
  st_urls : obj;
  st_count : Z;
  st_errors : list value;
  st_url : string;
  st_later : list (value * value)
}.

Definition ContextUrlError (errors : list value) : value :=
  JsonLdError "Could not resolve @context URL(s)." "jsonld.ContextUrlError"
    (VObj [("errors", VArr errors)]).

Definition InvalidUrl (msg url : string) : value :=
  JsonLdError msg "jsonld.InvalidUrl" (VObj [("url", VStr url)]).

Section UrlResolution.

(* [JSON.parse]: the parsed value, or [None] when it throws *)
Variable JSON_parse : string -> option value.

Definition finished (callback : option callback_fn) (st : resolve_state)
  : proc unit :=
  match st_errors st with
  | _ :: _ => invoke callback [ContextUrlError (st_errors st)]
  | [] => invoke callback [VNull; st_input st]
  end.

(* the closure [function(err, ctx) {...}] handed to the resolver *)
Definition resolved (callback : option callback_fn) (err ctx : value)
    (st : resolve_state) : proc resolve_state :=
  let count := (st_count st - 1)%Z in
  (* parse string context as JSON *)
  let (err, ctx) :=
    if negb (truthy err) && _isString ctx then
      match ctx with
      | VStr s =>
          match JSON_parse s with
          | Some v => (err, v)
          | None => (VNativeError "SyntaxError", ctx)
          end
      | _ => (err, ctx)
      end
    else (err, ctx) in
  (* ensure ctx is an object *)
  let err :=
    if negb (truthy err) && negb (_isObject ctx) then
      InvalidUrl "URL does not resolve to a valid JSON-LD object."
        (st_url st)
    else err in
  let st :=
    if truthy err then
      mk_state (st_input st) (st_urls st) count (st_errors st ++ [err])
        (st_url st) (st_later st)
    else
      mk_state (st_input st)
        (obj_set (st_urls st) (st_url st)
           (js_or (get_member ctx "@context") (VObj [])))
        count (st_errors st) (st_url st) (st_later st) in
  if (st_count st =? 0)%Z then
    (* if no errors, do URL replacement *)
    let st :=
      match st_errors st with
      | [] =>
          mk_state (fst (findUrls true (st_input st) (st_urls st)))
            (st_urls st) (st_count st) (st_errors st) (st_url st)
            (st_later st)
      | _ => st
      end in
    _ <~ finished callback st ;;
    pret st
  else pret st.

(* one turn of [for(var url in urls)] *)
Definition resolve_one (resolver : string -> resolution)
    (callback : option callback_fn) (st : resolve_state) (url : string)
  : proc resolve_state :=
  let st :=
    mk_state (st_input st) (st_urls st) (st_count st) (st_errors st) url
      (st_later st) in
  (* validate URL *)
  if negb (url_regex_test url) then
    pret (mk_state (st_input st) (st_urls st) (st_count st - 1)%Z
            (st_errors st ++ [InvalidUrl "Malformed URL." url])
            (st_url st) (st_later st))
  else
    match resolver url with
    | Resolves err ctx => resolved callback err ctx st
    | ResolvesLater err ctx =>
        pret (mk_state (st_input st) (st_urls st) (st_count st)
                (st_errors st) (st_url st) (st_later st ++ [(err, ctx)]))
    | Runs act => _ <~ act ;; pret st
    end.

Fixpoint pfold {A B : Type} (f : B -> A -> proc B) (l : list A) (b : B)
  : proc B :=
  match l with
  | [] => pret b
  | a :: l' => b' <~ f b a ;; pfold f l' b'
  end.

Definition _resolveUrls (input : value) (resolver : string -> resolution)
    (callback : option callback_fn) : proc unit :=
  let urls := snd (findUrls false input []) in
  let st :=
    mk_state input urls (Z.of_nat (List.length (obj_keys urls))) [] "" [] in
  (* nothing to resolve *)
  if (st_count st =? 0)%Z then finished callback st
  else
    (* resolve all URLs *)
    st <~ pfold (resolve_one resolver callback) (obj_keys urls) st ;;
    (* the function has returned; the postponed answers arrive *)
    _ <~ pfold (fun st (r : value * value) =>
                  resolved callback (fst r) (snd r) st)
               (st_later st) st ;;
    pret tt.

(** ** The public operations *)

(* [jsonld.expand(input, callback)].  [_resolveUrls] is declared with
   three parameters (input, resolver, callback) and called here with two:
   the function meant as its callback is bound to [resolver] and its
   [callback] is undefined *)
Definition jsonld_expand (fuel : nat) (input : value)
    (callback : callback_fn) : proc unit :=
  let input := _clone input in
  _resolveUrls input
    (fun url =>
       (* function(err, input) called as resolver(url, closure) *)
       Runs (let err := VStr url in
             let input := VFun in
             if truthy err then callback [err]
             else
               (* the fourth argument of [expand] is not a parameter *)
               _ <~ plift (expand fuel [] VNull input) ;;
               pret tt))
    None.

(* [jsonld.mergeContexts(ctx1, ctx2, callback)] *)
Definition jsonld_mergeContexts (fuel : nat) (ctx1 ctx2 : value)
    (callback : callback_fn) : proc unit :=
  let ctx1 := _clone (js_or ctx1 (VObj [])) in
  let ctx2 := _clone (js_or ctx2 (VObj [])) in
  _resolveUrls (VObj [("@context", ctx1)])
    (fun url =>
       Runs (let err := VStr url in
             let ctx1 := VFun in
             if truthy err then callback [err]
             else
               _resolveUrls (VObj [("@context", ctx2)])
                 (fun url =>
                    Runs (let err := VStr url in
                          let ctx2 := VFun in
                          if truthy err then callback [err]
                          else
                            ptry
                              (merged <~
                                 plift (mergeContexts fuel
                                          (get_member ctx1 "@context")
                                          (get_member ctx2 "@context")) ;;
                               callback [VNull; merged])
                              (fun ex => callback [ex])))
                 None))
    None.

(* [Object.keys(v).length] *)
Definition keys_length (v : value) : outcome nat :=
  match v with
  | VObj m => Ret (List.length m)
  | VArr l => Ret (List.length l)
  | _ => Throw TypeError
  end.

(* [target[k] = v]; a primitive drops the assignment, and a member added
   to an array is not part of the modelled value *)
Definition set_member (target : value) (k : string) (v : value)
  : outcome value :=
  match target with
  | VObj m => Ret (VObj (obj_set m k v))
  | VUndef | VNull => Throw TypeError
  | _ => Ret target
  end.

Definition _optimizeContext (input ctx : value) : value := ctx.

(* the [cleanup] closure of [jsonld.compact] *)
Definition cleanup (ctx optimize : value) (callback : callback_fn)
    (err compacted mergedCtx : value) : proc unit :=
  if truthy err then callback [err]
  else
    (* determine if the original context uses URLs or not *)
    let usesUrls :=
      _isString ctx ||
      match ctx with VArr l => existsb _isString l | _ => false end in
    _ <~ (if negb (truthy optimize) || usesUrls then
            n <~ plift (if _isObject ctx then keys_length ctx else Ret 0) ;;
            if negb (_isObject ctx) || Nat.ltb 0 n then
              plift (set_member compacted "@context" ctx)
            else pret compacted
          else
            let ctx := _optimizeContext compacted mergedCtx in
            n <~ plift (keys_length ctx) ;;
            if Nat.ltb 0 n then
              plift (set_member compacted "@context" ctx)
            else pret compacted) ;;
    callback [err].

Definition CouldNotExpand (err : value) : value :=
  JsonLdError "Could not expand input before compaction."
    "jsonld.CompactError" (VObj [("cause", err)]).

Definition CouldNotMerge (err : value) : value :=
  JsonLdError "Could not merge context before compaction."
    "jsonld.CompactError" (VObj [("cause", err)]).

(* [jsonld.compact(input, ctx, [optimize], callback)]; [optimize] is
   [None] when the call has three arguments.  [callback] is assigned from
   [arguments] after the test for a null input, so it is still undefined
   there *)
Definition jsonld_compact (fuel : nat) (input ctx : value)
    (optimize : option value) (callback : callback_fn) : proc unit :=
  match input with
  | VNull => invoke None [VNull; VNull]
  | _ =>
      let optimize :=
        match optimize with Some o => o | None => VBool false end in
      (* expand input then do compaction *)
      jsonld_expand fuel input
        (fun args =>
           let err := arg 0 args in
           if truthy err then callback [CouldNotExpand err]
           else
             (* merge and resolve contexts *)
             jsonld_mergeContexts fuel (VObj []) ctx
               (fun args =>
                  let err := arg 0 args in
                  let mergedCtx := arg 1 args in
                  if truthy err then callback [CouldNotMerge err]
                  else
                    ptry
                      (compacted <~
                         plift (match mergedCtx with
                                | VObj c => compact fuel c VNull input
                                | _ => Undetermined
                                end) ;;
                       cleanup ctx optimize callback VNull compacted
                         mergedCtx)
                      (fun ex =>
                         cleanup ctx optimize callback err VUndef VUndef)))
  end.

End UrlResolution.

(** ** Documents and contexts used in the statements *)

(* {"@context":{"name":"http://x/name"},"name":"Bob"} *)
Definition E1_document : value :=
  VObj [("@context", VObj [("name", VStr "http://x/name")]);
        ("name", VStr "Bob")].

(* {"http://x/name":[{"@value":"Bob"}]} *)
Definition E1_expanded : value :=
  VObj [("http://x/name", VArr [VObj [("@value", VStr "Bob")]])].

Definition name_context : obj := [("name", VStr "http://x/name")].

(* {"@list":[]} *)
Definition empty_list_document : value := VObj [("@list", VArr [])].

(* {"null":{"@container":"@list"}} *)
Definition null_list_context : obj :=
  [("null", VObj [("@container", VStr "@list")])].

(* {"@context":["http://a/1","http://a/2"]} *)
Definition two_url_document : value :=
  VObj [("@context", VArr [VStr "http://a/1"; VStr "http://a/2"])].

(* {"@context":"not a url"} *)
Definition malformed_url_document : value :=
  VObj [("@context", VStr "not a url")].

(* {"@context":["http://a/1","not a url"]} *)
Definition mixed_url_document : value :=
  VObj [("@context", VArr [VStr "http://a/1"; VStr "not a url"])].

(* {"@context":"http://e/ctx","t":"v"} and what the URL resolves to *)
Definition E5_document : value :=
  VObj [("@context", VStr "http://e/ctx"); ("t", VStr "v")].
Definition E5_remote : value :=
  VObj [("@context", VObj [("t", VStr "http://x/t")])].

(* {"a":"b","b":"http://x/i"} and {"a":"b","b":"a"} *)
Definition chain_context : obj := [("a", VStr "b"); ("b", VStr "http://x/i")].
Definition cyclic_context : obj := [("a", VStr "b"); ("b", VStr "a")].

(* expand, compact with [c], expand again *)
Definition expand_compact_expand (fuel : nat) (c : obj) (x : value)
  : outcome value :=
  e <- expand fuel [] VNull x ;;
  k <- compact fuel c VNull e ;;
  expand fuel [] VNull k.

(** ** Contexts that map terms to IRIs *)

Fixpoint unique_keys (m : obj) : bool :=
  match m with
  | [] => true
  | (k, _) :: m' => negb (obj_has m' k) && unique_keys m'
  end.

(* a string with a colon whose prefix is not itself a term of [ctx]: term
   expansion leaves it as it is *)
Definition is_iri_in (ctx : obj) (v : value) : bool :=
  match v with
  | VStr s =>
      match index_of_colon s with
      | Some idx => negb (obj_has ctx (take idx s))
      | None => false
      end
  | _ => false
  end.

Definition iri_context (ctx : obj) : bool :=
  unique_keys ctx && forallb (fun kv => is_iri_in ctx (snd kv)) ctx.

Definition maps_to (iri : string) (v : value) : bool :=
  match v with VStr s => s =? iri | _ => false end.

(* the key that the scan of [mergeContexts] deletes *)
Fixpoint first_term_for (entries : obj) (iri : string) : option string :=
  match entries with
  | [] => None
  | (k, v) :: rest =>
      if maps_to iri v then Some k else first_term_for rest iri
  end.

Definition remove_first_for (rval : obj) (iri : value) : obj :=
  match iri with
  | VStr s =>
      match first_term_for rval s with
      | Some k => obj_delete rval k
      | None => rval
      end
  | _ => rval
  end.

(* every call in the log has exactly one argument *)
Definition one_argument_calls (log : list call) : Prop :=
  Forall (fun args : call => List.length args = 1) log.

(* running [x] keeps the property [P] of the log *)
Definition preserves (P : list call -> Prop) {A : Type} (x : proc A) : Prop :=
  forall log, P log -> P (snd (x log)).

Definition callback_preserves (P : list call -> Prop)
    (callback : option callback_fn) : Prop :=
  match callback with
  | Some f => forall args, preserves P (f args)
  | None => True
  end.

Definition resolver_preserves (P : list call -> Prop)
    (resolver : string -> resolution) : Prop :=
  forall url,
    match resolver url with
    | Runs act => preserves P act
    | _ => True
    end.

(* the form of [iri_context] used in the proofs *)
Definition plain (r : obj) : Prop :=
  unique_keys r = true /\ forall k v, In (k, v) r -> is_iri_in r v = true.

(* {"a":"http://x/i"}, {"b":"http://x/i"} and {"a":"http://x/i","c":"http://x/i"} *)
Definition E6_first : obj := [("a", VStr "http://x/i")].
Definition E6_second : obj := [("b", VStr "http://x/i")].
Definition two_terms_context : obj :=
  [("a", VStr "http://x/i"); ("c", VStr "http://x/i")].

(** ** [removeValue] *)

(* [values.filter(function(e) { return e !== value; })] *)
Fixpoint filter_out (val : value) (l : list value) : outcome (list value) :=
  match l with
  | [] => Ret []
  | e :: l' =>
      same <- lift_eq (strict_eq e val) ;;
      rest <- filter_out val l' ;;
      Ret (if same then rest else e :: rest)
  end.

(* the subject is updated in place by the source; the model returns it *)
Definition removeValue (subject : obj) (property : string) (val : value)
    (propertyIsArray : value) : outcome obj :=
  let propertyIsArray :=
    if _isUndefined propertyIsArray then false else truthy propertyIsArray in
  match getValues subject property with
  | VArr l =>
      values <- filter_out val l ;;
      match values with
      | [] => Ret (removeProperty subject property)
      | [v] =>
          if negb propertyIsArray then Ret (obj_set subject property v)
          else Ret (obj_set subject property (VArr values))
      | _ => Ret (obj_set subject property (VArr values))
      end
  (* [getValues] returns an array in every case *)
  | _ => Undetermined
  end.

(** ** The default resolver and the operations left as stubs *)

(* [jsonld.urlResolver]: it answers at once, with an error and no context *)
Definition jsonld_urlResolver (url : string) : resolution :=
  Resolves
    (JsonLdError
       "Could not resolve @context URL. URL resolution not implemented."
       "jsonld.ContextUrlError" VUndef)
    VUndef.

Definition NotImplemented : value :=
  JsonLdError "Not implemented" "jsonld.NotImplemented" VUndef.

(* [Processor.prototype.frame], [normalize] and [triples] *)
Definition Processor_frame (input frame options : value)
    (callback : callback_fn) : proc unit :=
  callback [NotImplemented; VNull].

Definition Processor_normalize (input : value) (callback : callback_fn)
  : proc unit :=
  callback [NotImplemented; VNull].

Definition Processor_triples (input : value) (callback : callback_fn)
  : proc unit :=
  callback [NotImplemented; VNull].

Section Stubs.

Variable JSON_parse : string -> option value.

(* [jsonld.normalize(input, callback)]; as in [jsonld.expand], the function
   meant as the callback of [_resolveUrls] is passed in the place of the
   resolver *)
Definition jsonld_normalize (input : value) (callback : callback_fn)
  : proc unit :=
  let input := _clone input in
  _resolveUrls JSON_parse input
    (fun url =>
       Runs (let err := VStr url in
             let input := VFun in
             if truthy err then callback [err]
             else Processor_normalize input callback))
    None.

(* [jsonld.triples(input, callback)] *)
Definition jsonld_triples (input : value) (callback : callback_fn)
  : proc unit :=
  let input := _clone input in
  _resolveUrls JSON_parse input
    (fun url =>
       Runs (let err := VStr url in
             let input := VFun in
             if truthy err then callback [err]
             else Processor_triples input callback))
    None.

(* [jsonld.frame(input, frame, [options], callback)]; [options] is [None]
   when the call has three arguments.  The second pass is run on [input]
   again, not on the frame *)
Definition jsonld_frame (input frame : value) (options : option value)
    (callback : callback_fn) : proc unit :=
  let options := match options with Some o => o | None => VObj [] end in
  let input := _clone input in
  let frame := _clone frame in
  _resolveUrls JSON_parse input
    (fun url =>
       Runs (let err := VStr url in
             let input := VFun in
             if truthy err then callback [err]
             else
               _resolveUrls JSON_parse input
                 (fun url =>
                    Runs (let err := VStr url in
                          let input := VFun in
                          if truthy err then callback [err]
                          else Processor_frame input frame options callback))
                 None))
    None.

End Stubs.

(** ** Predicates used in the statements about the remaining code *)

(* the entries of an object with [f] applied to every value *)
Fixpoint map_values (f : value -> value) (m : obj) : obj :=
  match m with
  | [] => []
  | (k, v) :: m' => (k, f v) :: map_values f m'
  end.

(* each key is below the next one *)
Fixpoint keys_sorted (m : obj) : bool :=
  match m with
  | [] => true
  | kv :: m' =>
      match m' with
      | [] => true
      | kv' :: _ => String.leb (fst kv) (fst kv') && keys_sorted m'
      end
  end.

(* one turn of the loop of [_getKeywords] that gathers the aliases *)
Definition alias_step (keywords : obj) (kv : string * value) : obj :=
  match snd kv with
  | VStr s =>
      if _isString (VStr s) && obj_has builtin_keywords s
      then obj_set keywords s (VStr (fst kv))
      else keywords
  | _ => keywords
  end.

(* the key of the last entry of the context whose value is the string
   [kw] *)
Fixpoint last_alias (ctx : obj) (kw : string) : option string :=
  match ctx with
  | [] => None
  | (key, v) :: rest =>
      match last_alias rest kw with
      | Some k => Some k
      | None => if maps_to kw v then Some key else None
      end
  end.

(* no @context that [findUrls] looks at holds a non-empty string *)
Fixpoint url_free (v : value) : bool :=
  match v with
  | VArr l => forallb url_free l
  | VObj m =>
      match obj_get m "@context" with
      | VArr ctx => negb (existsb _isString ctx)
      | c => negb (_isString c)
      end
  | _ => true
  end.


(* a boolean, a number or a string *)
Definition is_scalar (v : value) : bool :=
  match v with
  | VBool _ | VNum _ | VStr _ => true
  | _ => false
  end.

(* a non-empty string *)
Definition is_text (v : value) : bool := _isString v.

(* every key of the context is a term: not empty, not starting with '@',
   and without a colon *)
Definition plain_term (key : string) : bool :=
  is_term_key key &&
  match index_of_colon key with None => true | Some _ => false end.

Definition term_context (ctx : obj) : bool :=
  iri_context ctx && forallb (fun kv => plain_term (fst kv)) ctx.

(* the callback was only ever given a single argument, a string that passes
   the URL test *)
Definition url_only_calls (log : list call) : Prop :=
  Forall (fun args : call =>
            exists url, args = [VStr url] /\ url_regex_test url = true) log.

(* running a resolver that never uses its second argument keeps [P], for
   the URLs that pass the URL test *)
Definition valid_resolver_preserves (P : list call -> Prop)
    (resolver : string -> resolution) : Prop :=
  forall url, url_regex_test url = true ->
    match resolver url with
    | Runs act => preserves P act
    | _ => True
    end.

(** ** Where an ordered map of own keys stands for the source's object

    [obj_has] and [obj_get] read the own keys of a map, in the order of its
    list.  The source's [k in o] and [o[k]] also reach the members of
    [Object.prototype], [_isObject] compares [o.constructor] with [Object],
    an assignment to [__proto__] adds no key, and [for .. in] visits the
    keys that start with a digit before the others.  The predicates below
    name the strings and maps on which none of this is met; the general
    statements about the code that looks names up carry them as
    hypotheses. *)

(* the members of [Object.prototype] *)
Definition prototype_names : list string :=
  [ "constructor"; "hasOwnProperty"; "isPrototypeOf";
    "propertyIsEnumerable"; "toLocaleString"; "toString"; "valueOf";
    "__proto__"; "__defineGetter__"; "__defineSetter__";
    "__lookupGetter__"; "__lookupSetter__" ].

(* [name in {}] *)
Definition inherited (name : string) : bool :=
  existsb (String.eqb name) prototype_names.

(* a key that starts with a digit: the array indices are among them, and
   [for .. in] visits those first, in numeric order *)
Definition index_like (key : string) : bool :=
  match key with
  | EmptyString => false
  | String c _ =>
      let n := nat_of_ascii c in ((48 <=? n) && (n <=? 57))%nat
  end.

(* the part of a string before its first colon, the string itself when it
   has none: what [_expandTerm] looks up in the context *)
Definition looked_up (s : string) : string :=
  match index_of_colon s with
  | Some idx => take idx s
  | None => s
  end.

(* a term or IRI whose lookup does not reach [Object.prototype] *)
Definition own_name (s : string) : bool := negb (inherited (looked_up s)).

(* no key of the map is a member name of [Object.prototype]: the map is an
   Object for [_isObject] and each of its keys can be assigned *)
Definition own_keys (m : obj) : bool :=
  forallb (fun kv => negb (inherited (fst kv))) m.

(* no key of the map starts with a digit: [for .. in] visits the keys in
   the order of the list *)
Definition ordered_keys (m : obj) : bool :=
  forallb (fun kv => negb (index_like (fst kv))) m.

(* a context with such keys, whose string entries are looked up without
   reaching [Object.prototype] *)
Definition ordinary_context (ctx : obj) : bool :=
  own_keys ctx && ordered_keys ctx &&
  forallb (fun kv => match snd kv with
                     | VStr s => own_name s
                     | _ => true
                     end) ctx.

(* every map inside the value has such keys *)
Fixpoint ordinary (v : value) : bool :=
  match v with
  | VObj m =>
      own_keys m && ordered_keys m &&
      (fix each (m : obj) : bool :=
         match m with
         | [] => true
         | (_, x) :: m' => ordinary x && each m'
         end) m
  | VArr l => forallb ordinary l
  | _ => true
  end.

(* the maps that [findUrls] inspects, the document itself or the members of
   its arrays, have no key that is a member name of [Object.prototype] *)
Fixpoint inspected_own (v : value) : bool :=
  match v with
  | VArr l => forallb inspected_own l
  | VObj m => own_keys m
  | _ => true
  end.

(* the value is null or a string, as the property the rewriters pass on *)
Definition is_property (v : value) : bool :=
  match v with
  | VNull | VStr _ => true
  | _ => false
  end.

(** * Properties *)

(** ** The utility API *)

Lemma js_or_falsy (v d : value) : truthy v = false -> js_or v d = d.
Proof. unfold js_or. intros ->. reflexivity. Qed.

Lemma js_or_truthy (v d : value) : truthy v = true -> js_or v d = v.
Proof. unfold js_or. intros ->. reflexivity. Qed.

Lemma obj_get_absent (m : obj) (k : string) :
  obj_has m k = false -> obj_get m k = VUndef.
Proof.
  induction m as [| [k' v] m IH]; simpl; [reflexivity |].
  destruct (k' =? k); simpl; [discriminate | exact IH].
Qed.

(** C10. [getValues] always returns an array: the stored array when the
    property holds one, the singleton of a truthy stored value that is not
    an array, and the empty array when the property is absent, that is
    neither a key of the subject nor a member name of [Object.prototype],
    or holds null, false, 0 or the empty string. *)
Theorem getValues_always_array (s : obj) (p : string) :
  (exists l, getValues s p = VArr l) /\
  (forall l, obj_get s p = VArr l -> getValues s p = VArr l) /\
  (forall v, obj_get s p = v -> truthy v = true -> _isArray v = false ->
             getValues s p = VArr [v]) /\
  (obj_has s p = false -> inherited p = false -> getValues s p = VArr []) /\
  (forall v, obj_get s p = v ->
             In v [VNull; VBool false; VNum 0; VStr ""] ->
             getValues s p = VArr []).
Proof.
  unfold getValues.
  repeat split.
  - destruct (truthy (obj_get s p)) eqn:T.
    + rewrite (js_or_truthy _ _ T).
      destruct (obj_get s p); simpl; eauto.
    + rewrite (js_or_falsy _ _ T). simpl. eauto.
  - intros l ->. reflexivity.
  - intros v -> T A. rewrite (js_or_truthy _ _ T), A. reflexivity.
  - intros H _. rewrite (obj_get_absent _ _ H). reflexivity.
  - intros v -> [<- | [<- | [<- | [<- | []]]]]; reflexivity.
Qed.

Lemma getValues_always_array_witness :
  getValues [("p", VArr [VStr "x"; VStr "y"])] "p" = VArr [VStr "x"; VStr "y"] /\
  getValues [("p", VStr "x")] "p" = VArr [VStr "x"] /\
  getValues [("q", VStr "x")] "p" = VArr [] /\
  getValues [("p", VNum 0)] "p" = VArr [].
Proof.
  pose proof (getValues_always_array [("p", VArr [VStr "x"; VStr "y"])] "p")
    as (_ & A & _).
  pose proof (getValues_always_array [("p", VStr "x")] "p") as (_ & _ & B & _).
  pose proof (getValues_always_array [("q", VStr "x")] "p")
    as (_ & _ & _ & C & _).
  pose proof (getValues_always_array [("p", VNum 0)] "p")
    as (_ & _ & _ & _ & D).
  split; [apply A; reflexivity |].
  split; [apply B; reflexivity |].
  split; [apply C; reflexivity |].
  apply (D (VNum 0)); [reflexivity | simpl; auto].
Defined.

(** C8. [addValue] tests the negation of [hasValue]: a value that the
    property does not hold yet is not appended, and a value that it already
    holds is appended a second time; when the property holds a non-empty
    array the membership test calls an undeclared [indexOf]. *)
Theorem addValue_inverted_test :
  addValue [("p", VStr "x")] "p" (VStr "y") VUndef = Ret [("p", VStr "x")] /\
  addValue [("p", VStr "x")] "p" (VStr "x") VUndef
    = Ret [("p", VArr [VStr "x"; VStr "x"])] /\
  addValue [("p", VArr [VStr "x"])] "p" (VStr "y") VUndef
    = Throw ReferenceError /\
  addValue [] "p" (VStr "y") VUndef = Ret [("p", VStr "y")] /\
  addValue [] "p" (VStr "y") (VBool true) = Ret [("p", VArr [VStr "y"])].
Proof. repeat split. Qed.

(** ** Term expansion *)

(** C5. In [{"a":"b","b":"http://x/i"}] no term is defined through itself,
    yet expanding [a] raises CyclicalContext: the loop compares against a
    value it never updates.  Expanding either term of [{"a":"b","b":"a"}]
    raises it as well, and a term defined directly by an IRI expands. *)
Theorem expandTerm_chain_reported_cyclic (n : nat) :
  _expandTerm (3 + n) chain_context (VStr "a") false
    = Throw (CyclicalContext chain_context (VStr "b")) /\
  _expandTerm (3 + n) cyclic_context (VStr "a") false
    = Throw (CyclicalContext cyclic_context (VStr "b")) /\
  _expandTerm (3 + n) cyclic_context (VStr "b") false
    = Throw (CyclicalContext cyclic_context (VStr "a")) /\
  _expandTerm (3 + n) chain_context (VStr "b") false
    = Ret (VStr "http://x/i").
Proof. repeat split. Qed.

(** ** The rewriters *)

(* [var isList = value]: an object without a [@list] member is sent to the
   list branch and refused there, whatever the context and the property *)
Lemma expand_object_without_list (n : nat) (ctx : obj) (property : value)
    (m : obj) :
  obj_has m "@list" = false ->
  expand (1 + n) ctx property (VObj m) = Throw list_not_array.
Proof.
  intros H. cbn [expand Nat.add].
  replace ((match property with VNull => true | _ => false end)
           && _isString (VObj m)) with false
    by (destruct property; reflexivity).
  cbn [truthy _isArray orb get_member]. rewrite (obj_get_absent _ _ H).
  reflexivity.
Qed.

Lemma term_key_not_keyword (key rest : string) :
  is_term_key key = true -> (key =? String "@" rest) = false.
Proof.
  destruct key as [| c key]; simpl; [discriminate |].
  rewrite negb_true_iff. intros ->. reflexivity.
Qed.

(** C7. The test that drops a key calls [getContextValue] with the key
    alone, which yields null for every key, so a key is kept only when it
    is an absolute IRI: whatever the context, and so also when the context
    defines the key, the compactor drops a term that is not an absolute
    IRI, and the expander rejects the subject that holds it.  The key is
    not [constructor], which would hide the constructor that [_isObject]
    compares with [Object], nor [__proto__]. *)
Theorem context_defined_key_dropped (n : nat) (ctx : obj) (key : string)
    (v : value) :
  is_term_key key = true -> _isAbsoluteIri key = false ->
  key <> "constructor" -> key <> "__proto__" ->
  compact (1 + n) ctx VNull (VObj [(key, v)]) = Ret (VObj []) /\
  expand (1 + n) ctx VNull (VObj [(key, v)]) = Throw list_not_array.
Proof.
  intros Hk Habs _ _.
  assert (Hkw : forall rest, obj_has [(key, v)] (String "@" rest) = false).
  { intros rest. simpl. rewrite (term_key_not_keyword key rest Hk).
    reflexivity. }
  split.
  - cbn [compact Nat.add _isListValue _isArray orb _isSubject].
    rewrite !Hkw. cbn [orb negb obj_keys map List.length Nat.ltb Nat.leb].
    cbn [foldM fst snd].
    rewrite (term_key_not_keyword key "context" Hk), Habs.
    reflexivity.
  - apply expand_object_without_list. apply Hkw.
Qed.

Lemma context_defined_key_dropped_witness :
  obj_has name_context "name" = true /\
  compact 1 name_context VNull (VObj [("name", VStr "Bob")]) = Ret (VObj []) /\
  expand 1 name_context VNull (VObj [("name", VStr "Bob")])
    = Throw list_not_array.
Proof.
  split; [reflexivity |].
  apply (context_defined_key_dropped 0 name_context "name" (VStr "Bob"));
    [reflexivity | reflexivity | discriminate | discriminate].
Defined.

(** C1. The first expansion of an ordinary document raises a syntax error,
    so there is nothing to compact; and where it does succeed the
    round trip can still fail: [{"@list":[]}] expands to itself, compacts
    to [[]] under [{"null":{"@container":"@list"}}], and [[]] does not
    expand. *)
Theorem expand_compact_expand_fails (n : nat) :
  expand (1 + n) [] VNull E1_document = Throw list_not_array /\
  expand (4 + n) [] VNull empty_list_document = Ret empty_list_document /\
  compact (4 + n) null_list_context VNull empty_list_document
    = Ret (VArr []) /\
  expand_compact_expand (4 + n) null_list_context empty_list_document
    = Throw list_not_array.
Proof. repeat split. Qed.

(** ** The public operations *)

Section PublicOperations.

Variable JSON_parse : string -> option value.

(** C2. [jsonld.expand] on the document of scenario E1 does not produce
    [{"http://x/name":[{"@value":"Bob"}]}]: the URL pass calls its
    missing callback, a TypeError escapes and the caller's callback is
    not invoked; the rewriter alone raises a syntax error on it. *)
Theorem jsonld_expand_E1 (n : nat) :
  jsonld_expand JSON_parse n E1_document user_callback []
    = (Throw TypeError, []) /\
  expand (1 + n) [] VNull E1_document = Throw list_not_array /\
  expand (1 + n) [] VNull E1_document <> Ret E1_expanded.
Proof. repeat split. discriminate. Qed.

(** C4. [jsonld.expand] does not deliver its callback exactly once: for
    a document without @context URLs it is never called, and for a
    document naming two URLs it is called twice, each time with the URL
    in the place of the error. *)
Theorem jsonld_expand_callback_count (n : nat) :
  jsonld_expand JSON_parse n E1_document user_callback []
    = (Throw TypeError, []) /\
  jsonld_expand JSON_parse n two_url_document user_callback []
    = (Ret tt, [[VStr "http://a/1"]; [VStr "http://a/2"]]).
Proof. repeat split. Qed.

(** C9. When every collected URL is malformed [_resolveUrls] returns
    without calling its callback, whatever the resolver; the same happens
    when a malformed URL comes last after one that resolved at once.  A
    URL that resolves is substituted and reported once, and a resolver
    error is reported once in a ContextUrlError that lists it. *)
Theorem resolveUrls_malformed_never_completes
    (resolver : string -> resolution) :
  _resolveUrls JSON_parse malformed_url_document resolver
    (Some user_callback) [] = (Ret tt, []) /\
  _resolveUrls JSON_parse mixed_url_document
    (fun _ => Resolves VNull (VObj [])) (Some user_callback) []
    = (Ret tt, []) /\
  _resolveUrls JSON_parse E5_document
    (fun _ => Resolves VNull E5_remote) (Some user_callback) []
    = (Ret tt,
       [[VNull;
         VObj [("@context", VObj [("t", VStr "http://x/t")]);
               ("t", VStr "v")]]]) /\
  _resolveUrls JSON_parse E5_document
    (fun _ => Resolves (VStr "unreachable") VUndef) (Some user_callback) []
    = (Ret tt, [[ContextUrlError [VStr "unreachable"]]]).
Proof. repeat split. Qed.

End PublicOperations.

(** ** What reaches the caller's callback *)

Section LogInvariant.

Variable JSON_parse : string -> option value.
Variable P : list call -> Prop.

Lemma preserves_pret {A} (a : A) : preserves P (pret a).
Proof. intros log H. exact H. Qed.

Lemma preserves_plift {A} (x : outcome A) : preserves P (plift x).
Proof. intros log H. exact H. Qed.

Lemma preserves_pbind {A B} (x : proc A) (f : A -> proc B) :
  preserves P x -> (forall a, preserves P (f a)) -> preserves P (pbind x f).
Proof.
  intros Hx Hf log H. unfold pbind.
  specialize (Hx log H).
  destruct (x log) as [[a | e |] log']; simpl in *; auto.
  apply Hf. exact Hx.
Qed.

Lemma preserves_ptry {A} (body : proc A) (handler : value -> proc A) :
  preserves P body -> (forall e, preserves P (handler e)) ->
  preserves P (ptry body handler).
Proof.
  intros Hb Hh log H. unfold ptry.
  specialize (Hb log H).
  destruct (body log) as [[a | e |] log']; simpl in *; auto.
  apply Hh. exact Hb.
Qed.

Lemma preserves_pfold {A B} (f : B -> A -> proc B) (l : list A) :
  (forall b a, preserves P (f b a)) -> forall b, preserves P (pfold f l b).
Proof.
  intros Hf. induction l as [| a l IH]; intros b; simpl.
  - apply preserves_pret.
  - apply preserves_pbind; [apply Hf | exact IH].
Qed.

Lemma preserves_invoke callback args :
  callback_preserves P callback -> preserves P (invoke callback args).
Proof.
  destruct callback as [f |]; simpl; intros H.
  - apply H.
  - apply preserves_plift.
Qed.

Lemma preserves_finished callback st :
  callback_preserves P callback -> preserves P (finished callback st).
Proof.
  intros H. unfold finished.
  destruct (st_errors st); apply preserves_invoke; exact H.
Qed.

Lemma preserves_resolved callback err ctx st :
  callback_preserves P callback ->
  preserves P (resolved JSON_parse callback err ctx st).
Proof.
  intros H. unfold resolved.
  destruct (if negb (truthy err) && _isString ctx then _ else _) as [err' ctx'].
  match goal with
  | |- context [if (st_count ?s =? 0)%Z then _ else _] =>
      destruct (st_count s =? 0)%Z
  end.
  - apply preserves_pbind; [apply preserves_finished; exact H |].
    intros _. apply preserves_pret.
  - apply preserves_pret.
Qed.

Lemma preserves_resolve_one resolver callback st url :
  callback_preserves P callback -> resolver_preserves P resolver ->
  preserves P (resolve_one JSON_parse resolver callback st url).
Proof.
  intros Hc Hr. unfold resolve_one.
  destruct (negb (url_regex_test url)); [apply preserves_pret |].
  specialize (Hr url).
  destruct (resolver url) as [err ctx | err ctx | act].
  - apply preserves_resolved. exact Hc.
  - apply preserves_pret.
  - apply preserves_pbind; [exact Hr | intros _; apply preserves_pret].
Qed.

Lemma preserves_resolveUrls input resolver callback :
  callback_preserves P callback -> resolver_preserves P resolver ->
  preserves P (_resolveUrls JSON_parse input resolver callback).
Proof.
  intros Hc Hr. unfold _resolveUrls.
  match goal with
  | |- context [if ?c then _ else _] => destruct c
  end.
  - apply preserves_finished. exact Hc.
  - apply preserves_pbind.
    + apply preserves_pfold. intros b a.
      apply preserves_resolve_one; assumption.
    + intros st. apply preserves_pbind; [| intros _; apply preserves_pret].
      apply preserves_pfold. intros b a.
      apply preserves_resolved. exact Hc.
Qed.

Lemma preserves_jsonld_expand fuel input (callback : callback_fn) :
  (forall v, preserves P (callback [v])) ->
  preserves P (jsonld_expand JSON_parse fuel input callback).
Proof.
  intros Hc. unfold jsonld_expand.
  apply preserves_resolveUrls; [exact I |].
  intros url. simpl.
  destruct (negb (url =? "")).
  - apply Hc.
  - apply preserves_pbind; [apply preserves_plift |].
    intros _. apply preserves_pret.
Qed.

Lemma preserves_jsonld_mergeContexts fuel ctx1 ctx2 (callback : callback_fn) :
  (forall args, preserves P (callback args)) ->
  preserves P (jsonld_mergeContexts JSON_parse fuel ctx1 ctx2 callback).
Proof.
  intros Hc. unfold jsonld_mergeContexts.
  apply preserves_resolveUrls; [exact I |].
  intros url. simpl.
  destruct (negb (url =? "")); [apply Hc |].
  apply preserves_resolveUrls; [exact I |].
  intros url2. simpl.
  destruct (negb (url2 =? "")); [apply Hc |].
  apply preserves_ptry.
  - apply preserves_pbind; [apply preserves_plift | intros m; apply Hc].
  - intros e. apply Hc.
Qed.

Lemma preserves_cleanup ctx optimize (callback : callback_fn)
    err compacted mergedCtx :
  (forall v, preserves P (callback [v])) ->
  preserves P (cleanup ctx optimize callback err compacted mergedCtx).
Proof.
  intros Hc. unfold cleanup.
  destruct (truthy err); [apply Hc |].
  apply preserves_pbind; [| intros _; apply Hc].
  match goal with
  | |- context [if ?c then _ else _] => destruct c
  end.
  - apply preserves_pbind; [apply preserves_plift |].
    intros k. destruct (negb (_isObject ctx) || Nat.ltb 0 k).
    + apply preserves_plift.
    + apply preserves_pret.
  - apply preserves_pbind; [apply preserves_plift |].
    intros k. destruct (Nat.ltb 0 k).
    + apply preserves_plift.
    + apply preserves_pret.
Qed.

End LogInvariant.

Lemma user_callback_one_argument (v : value) :
  preserves one_argument_calls (user_callback [v]).
Proof.
  intros log H. unfold user_callback. simpl.
  apply Forall_app. split; [exact H |].
  constructor; [reflexivity | constructor].
Qed.

(** C3. [jsonld.compact] never hands the compacted document to the
    caller's callback: whatever the input, the context and the optimize
    flag, every call it receives carries a single argument, the error slot;
    and on the document of scenario E1 it is not called at all, because the
    expansion step raises a TypeError first. *)
Theorem jsonld_compact_never_delivers (JSON_parse : string -> option value)
    (fuel : nat) (input ctx : value) (optimize : option value) :
  one_argument_calls
    (snd (jsonld_compact JSON_parse fuel input ctx optimize user_callback [])) /\
  jsonld_compact JSON_parse fuel E1_document (VObj name_context) None
    user_callback [] = (Throw TypeError, []).
Proof.
  split; [| reflexivity].
  assert (Hc : forall v, preserves one_argument_calls (user_callback [v]))
    by exact user_callback_one_argument.
  assert (preserves one_argument_calls
            (jsonld_compact JSON_parse fuel input ctx optimize user_callback))
    as Hp.
  { unfold jsonld_compact.
    assert (preserves one_argument_calls
              (invoke None [VNull; VNull])) as Hn
      by apply preserves_plift.
    destruct input; try exact Hn;
      (apply preserves_jsonld_expand; intros v;
       destruct (truthy (arg 0 [v])); [apply Hc |];
       apply preserves_jsonld_mergeContexts; intros args';
       destruct (truthy (arg 0 args')); [apply Hc |];
       apply preserves_ptry;
       [ apply preserves_pbind; [apply preserves_plift |];
         intros c; apply preserves_cleanup; exact Hc
       | intros e; apply preserves_cleanup; exact Hc ]). }
  apply Hp. constructor.
Qed.

(** ** Merging contexts *)

(** ** Ordered maps *)

Lemma obj_has_In (m : obj) (k : string) :
  obj_has m k = true <-> In k (obj_keys m).
Proof.
  induction m as [| [k' v] m IH]; simpl.
  - split; [discriminate | tauto].
  - rewrite orb_true_iff, IH, String.eqb_eq. tauto.
Qed.

Lemma unique_keys_NoDup (m : obj) :
  unique_keys m = true <-> NoDup (obj_keys m).
Proof.
  induction m as [| [k v] m IH]; simpl.
  - split; [constructor | reflexivity].
  - rewrite andb_true_iff, negb_true_iff, IH. split.
    + intros [H1 H2]. constructor; [| exact H2].
      intros Hin. apply obj_has_In in Hin. congruence.
    + intros H. inversion H as [| ? ? Hn Hd]; subst. split; [| exact Hd].
      destruct (obj_has m k) eqn:E; [| reflexivity].
      apply obj_has_In in E. contradiction.
Qed.

Lemma In_obj_has (m : obj) (k : string) (v : value) :
  In (k, v) m -> obj_has m k = true.
Proof.
  intros H. apply obj_has_In. unfold obj_keys.
  change k with (fst (k, v)). apply in_map. exact H.
Qed.

Lemma obj_get_In (m : obj) (k : string) (v : value) :
  unique_keys m = true -> In (k, v) m -> obj_get m k = v.
Proof.
  induction m as [| [k' v'] m IH]; simpl; [tauto |].
  rewrite andb_true_iff, negb_true_iff. intros [Hn Hu] [Heq | Hin].
  - inversion Heq; subst. rewrite String.eqb_refl. reflexivity.
  - destruct (String.eqb_spec k' k) as [-> | _].
    + apply In_obj_has in Hin. congruence.
    + apply IH; assumption.
Qed.

Lemma obj_get_defined (m : obj) (k : string) (v : value) :
  obj_get m k = v -> v <> VUndef -> In (k, v) m.
Proof.
  induction m as [| [k' v'] m IH]; simpl; intros H Hv.
  - congruence.
  - destruct (String.eqb_spec k' k) as [-> | _].
    + left. congruence.
    + right. apply IH; assumption.
Qed.

Lemma In_obj_delete (m : obj) (k0 : string) (kv : string * value) :
  In kv (obj_delete m k0) -> In kv m.
Proof.
  induction m as [| [k' v'] m IH]; simpl; [tauto |].
  destruct (k' =? k0); simpl; intuition.
Qed.

Lemma obj_has_delete (m : obj) (k0 k : string) :
  obj_has (obj_delete m k0) k = true -> obj_has m k = true.
Proof.
  rewrite !obj_has_In. unfold obj_keys. rewrite !in_map_iff.
  intros ([k1 v1] & E & Hin). exists (k1, v1). split; [exact E |].
  eapply In_obj_delete. exact Hin.
Qed.

Lemma obj_has_delete_false (m : obj) (k0 k : string) :
  obj_has m k = false -> obj_has (obj_delete m k0) k = false.
Proof.
  intros H. destruct (obj_has (obj_delete m k0) k) eqn:E; [| reflexivity].
  apply obj_has_delete in E. congruence.
Qed.

Lemma unique_keys_delete (m : obj) (k0 : string) :
  unique_keys m = true -> unique_keys (obj_delete m k0) = true.
Proof.
  induction m as [| [k' v'] m IH]; simpl; [reflexivity |].
  rewrite andb_true_iff, negb_true_iff. intros [Hn Hu].
  destruct (k' =? k0); simpl; [exact Hu |].
  rewrite (obj_has_delete_false _ _ _ Hn), IH; auto.
Qed.

Lemma obj_delete_absent (m : obj) (k : string) :
  unique_keys m = true -> obj_has (obj_delete m k) k = false.
Proof.
  induction m as [| [k' v'] m IH]; simpl; [reflexivity |].
  rewrite andb_true_iff, negb_true_iff. intros [Hn Hu].
  destruct (String.eqb_spec k' k) as [-> | Hne]; simpl; [exact Hn |].
  rewrite IH by exact Hu.
  apply String.eqb_neq in Hne. rewrite Hne. reflexivity.
Qed.

Lemma In_obj_delete_other (m : obj) (k0 k : string) (v : value) :
  k <> k0 -> In (k, v) m -> In (k, v) (obj_delete m k0).
Proof.
  intros Hne. induction m as [| [k' v'] m IH]; simpl; [tauto |].
  intros [Heq | Hin].
  - inversion Heq; subst. apply String.eqb_neq in Hne. rewrite Hne.
    left. reflexivity.
  - destruct (k' =? k0); [exact Hin | right; auto].
Qed.

Lemma obj_has_set (m : obj) (k k' : string) (v : value) :
  obj_has (obj_set m k v) k' = (k =? k') || obj_has m k'.
Proof.
  induction m as [| [k1 v1] m IH]; simpl.
  - reflexivity.
  - destruct (String.eqb_spec k1 k) as [-> | Hne]; simpl.
    + destruct (k =? k'); reflexivity.
    + rewrite IH. destruct (k1 =? k'), (k =? k'); reflexivity.
Qed.

Lemma obj_get_set_same (m : obj) (k : string) (v : value) :
  obj_get (obj_set m k v) k = v.
Proof.
  induction m as [| [k1 v1] m IH]; simpl.
  - rewrite String.eqb_refl. reflexivity.
  - destruct (String.eqb_spec k1 k) as [-> | Hne]; simpl.
    + rewrite String.eqb_refl. reflexivity.
    + apply String.eqb_neq in Hne. rewrite Hne. exact IH.
Qed.

Lemma obj_get_set_other (m : obj) (k k' : string) (v : value) :
  k <> k' -> obj_get (obj_set m k v) k' = obj_get m k'.
Proof.
  intros Hne. induction m as [| [k1 v1] m IH]; simpl.
  - apply String.eqb_neq in Hne. rewrite Hne. reflexivity.
  - destruct (String.eqb_spec k1 k) as [-> | Hne1]; simpl.
    + apply String.eqb_neq in Hne. rewrite Hne. reflexivity.
    + rewrite IH. reflexivity.
Qed.

(** ** Sorting and cloning *)

Lemma insert_sorted_perm (kv : string * value) (m : obj) :
  Permutation (insert_sorted kv m) (kv :: m).
Proof.
  induction m as [| kv' m IH]; simpl; [reflexivity |].
  destruct (String.leb (fst kv) (fst kv')); [reflexivity |].
  rewrite IH. apply perm_swap.
Qed.

Lemma sort_keys_perm (m : obj) : Permutation (sort_keys m) m.
Proof.
  induction m as [| kv m IH]; simpl; [reflexivity |].
  rewrite insert_sorted_perm. constructor. exact IH.
Qed.

Lemma clone_iri_context (m : obj) :
  (forall k v, In (k, v) m -> exists s, v = VStr s) ->
  _clone (VObj m) = VObj (sort_keys m).
Proof.
  intros H. simpl. do 2 f_equal.
  induction m as [| [k v] m IH]; [reflexivity |].
  destruct (H k v) as [s ->]; [left; reflexivity |].
  simpl. f_equal. apply IH. intros k' v' Hin. apply (H k' v'). right. exact Hin.
Qed.

(** ** Contexts of IRIs *)

Lemma iri_context_plain (c : obj) : iri_context c = true -> plain c.
Proof.
  unfold iri_context, plain. rewrite andb_true_iff, forallb_forall.
  intros [Hu Hall]. split; [exact Hu |].
  intros k v Hin. apply (Hall (k, v) Hin).
Qed.

Lemma is_iri_in_string (r : obj) (v : value) :
  is_iri_in r v = true ->
  exists s idx, v = VStr s /\ index_of_colon s = Some idx /\
                obj_has r (take idx s) = false.
Proof.
  destruct v; simpl; try discriminate.
  destruct (index_of_colon s) as [idx |] eqn:E; [| discriminate].
  rewrite negb_true_iff. intros H. exists s, idx. auto.
Qed.

Lemma is_iri_in_subcontext (r r' : obj) (v : value) :
  (forall k, obj_has r' k = true -> obj_has r k = true) ->
  is_iri_in r v = true -> is_iri_in r' v = true.
Proof.
  intros Hsub. destruct v; simpl; try discriminate.
  destruct (index_of_colon s) as [idx |]; [| discriminate].
  rewrite !negb_true_iff. intros H.
  destruct (obj_has r' (take idx s)) eqn:E; [| reflexivity].
  apply Hsub in E. congruence.
Qed.

Lemma plain_delete (r : obj) (k0 : string) :
  plain r -> plain (obj_delete r k0).
Proof.
  intros [Hu Hall]. split; [apply unique_keys_delete; exact Hu |].
  intros k v Hin. apply In_obj_delete in Hin.
  eapply is_iri_in_subcontext; [| apply (Hall k v Hin)].
  intros k'. apply obj_has_delete.
Qed.

Lemma plain_sort_keys (c : obj) : plain c -> plain (sort_keys c).
Proof.
  intros [Hu Hall].
  pose proof (sort_keys_perm c) as Hp.
  assert (Hk : Permutation (obj_keys (sort_keys c)) (obj_keys c))
    by (apply Permutation_map; exact Hp).
  split.
  - apply unique_keys_NoDup. apply unique_keys_NoDup in Hu.
    eapply Permutation_NoDup; [symmetry; exact Hk | exact Hu].
  - intros k v Hin.
    eapply is_iri_in_subcontext; [| apply (Hall k v)].
    + intros k'. rewrite !obj_has_In. apply Permutation_in. exact Hk.
    + eapply Permutation_in; [exact Hp | exact Hin].
Qed.

Lemma index_of_colon_nonempty (s : string) (idx : nat) :
  index_of_colon s = Some idx -> (s =? "") = false.
Proof. destruct s; simpl; [discriminate | reflexivity]. Qed.

(* an entry of a context of IRIs is its own [@id] *)
Lemma getContextValue_iri (n : nat) (r : obj) (k : string) (v : value) :
  plain r -> In (k, v) r ->
  getContextValue (2 + n) r (VStr k) "@id" true = Ret v.
Proof.
  intros [Hu Hall] Hin.
  destruct (is_iri_in_string r v (Hall k v Hin)) as (s & idx & -> & Hc & Hp).
  unfold getContextValue, getContextValue_with. simpl js_to_string.
  cbv beta iota delta [bind].
  rewrite (In_obj_has _ _ _ Hin), (obj_get_In _ _ _ Hu Hin).
  simpl. rewrite (index_of_colon_nonempty _ _ Hc). simpl.
  rewrite Hc, Hp. simpl. rewrite Hc, Hp. simpl.
  destruct n; simpl; rewrite String.eqb_refl; reflexivity.
Qed.

Lemma strict_eq_iri (iri : string) (v : value) (r : obj) :
  is_iri_in r v = true ->
  lift_eq (strict_eq (VStr iri) v) = Ret (maps_to iri v).
Proof.
  intros H. destruct (is_iri_in_string r v H) as (s & idx & -> & _ & _).
  simpl. rewrite String.eqb_sym. reflexivity.
Qed.

Lemma remove_old_entry_iri (n : nat) (r : obj) (iri : string) (entries : obj) :
  plain r -> incl entries r ->
  remove_old_entry (2 + n) r (VStr iri) entries
  = Ret (match first_term_for entries iri with
         | Some k => obj_delete r k
         | None => r
         end).
Proof.
  intros Hp. induction entries as [| [k v] rest IH]; intros Hincl.
  - reflexivity.
  - assert (Hin : In (k, v) r) by (apply Hincl; left; reflexivity).
    cbn [remove_old_entry first_term_for].
    rewrite (getContextValue_iri n r k v Hp Hin).
    cbn [bind].
    rewrite (strict_eq_iri iri v r (proj2 Hp k v Hin)). cbn [bind].
    destruct (maps_to iri v); [reflexivity |].
    apply IH. intros x Hx. apply Hincl. right. exact Hx.
Qed.

Lemma plain_remove_first_for (r : obj) (v : value) :
  plain r -> plain (remove_first_for r v).
Proof.
  intros Hp. unfold remove_first_for.
  destruct v; try exact Hp.
  destruct (first_term_for r s); [apply plain_delete |]; exact Hp.
Qed.

Lemma remove_replaced_iri (n : nat) (c2 : obj) :
  plain c2 ->
  forall (l : obj) (r : obj), incl l c2 -> plain r ->
  foldM (fun (rval : obj) (kv : string * value) =>
           newIri <- getContextValue (2 + n) c2 (VStr (fst kv)) "@id" true ;;
           isNull <- lift_eq (strict_eq newIri VNull) ;;
           if isNull then Ret rval
           else remove_old_entry (2 + n) rval newIri rval) l r
  = Ret (fold_left (fun r kv => remove_first_for r (snd kv)) l r).
Proof.
  intros Hp2. induction l as [| [k v] l IH]; intros r Hincl Hp.
  - reflexivity.
  - assert (Hin : In (k, v) c2) by (apply Hincl; left; reflexivity).
    cbn [foldM fold_left fst snd].
    rewrite (getContextValue_iri n c2 k v Hp2 Hin). cbn [bind].
    destruct (is_iri_in_string c2 v (proj2 Hp2 k v Hin))
      as (s & idx & -> & _ & _).
    cbn [strict_eq lift_eq bind].
    rewrite (remove_old_entry_iri n r s r Hp (incl_refl r)). cbn [bind].
    apply IH.
    + intros x Hx. apply Hincl. right. exact Hx.
    + apply (plain_remove_first_for r (VStr s) Hp).
Qed.

(** ** The scan and the overlay of [mergeContexts] *)

Lemma first_term_for_Some (r : obj) (iri k : string) :
  first_term_for r iri = Some k ->
  exists v, In (k, v) r /\ maps_to iri v = true.
Proof.
  induction r as [| [k' v'] r IH]; simpl; [discriminate |].
  destruct (maps_to iri v') eqn:E.
  - intros [= <-]. exists v'. auto.
  - intros H. destruct (IH H) as (v & Hin & Hm). exists v. auto.
Qed.

Lemma first_term_for_None (r : obj) (iri : string) :
  first_term_for r iri = None ->
  forall k v, In (k, v) r -> maps_to iri v = false.
Proof.
  induction r as [| [k' v'] r IH]; simpl; [tauto |].
  destruct (maps_to iri v') eqn:E; [discriminate |].
  intros H k v [[= <- <-] | Hin]; [exact E | eapply IH; eassumption].
Qed.

Lemma overlay_has (l r : obj) (k : string) :
  obj_has (overlay l r) k = obj_has r k || obj_has l k.
Proof.
  unfold overlay. revert r.
  induction l as [| [k1 v1] l IH]; intros r; simpl.
  - rewrite orb_false_r. reflexivity.
  - rewrite IH, obj_has_set.
    destruct (k1 =? k), (obj_has r k), (obj_has l k); reflexivity.
Qed.

Lemma overlay_get_other (l r : obj) (k : string) :
  obj_has l k = false -> obj_get (overlay l r) k = obj_get r k.
Proof.
  unfold overlay. revert r.
  induction l as [| [k1 v1] l IH]; intros r; simpl; [reflexivity |].
  rewrite orb_false_iff. intros [Hne Hl].
  rewrite (IH _ Hl). apply obj_get_set_other.
  apply String.eqb_neq. exact Hne.
Qed.

Lemma overlay_get (l r : obj) (k : string) (v : value) :
  unique_keys l = true -> In (k, v) l -> obj_get (overlay l r) k = v.
Proof.
  revert r. induction l as [| [k1 v1] l IH]; intros r; simpl; [tauto |].
  rewrite andb_true_iff, negb_true_iff. intros [Hn Hu] [[= -> ->] | Hin].
  - change (obj_get (overlay l (obj_set r k v)) k = v).
    rewrite (overlay_get_other _ _ _ Hn). apply obj_get_set_same.
  - apply (IH (obj_set r k1 v1) Hu Hin).
Qed.

(** C6. The scan that removes the old definition of an IRI stops at the
    first term it finds.  [{"a":"http://x/i","c":"http://x/i"}] maps [c] to
    the IRI that [{"b":"http://x/i"}] gives to [b], and [c] still stands
    for that IRI after the merge.  With [a] as the only old term for the
    IRI the merge is [{"b":"http://x/i"}]. *)
Theorem mergeContexts_keeps_second_term (n : nat) :
  obj_get two_terms_context "c" = VStr "http://x/i" /\
  obj_get E6_second "b" = VStr "http://x/i" /\
  mergeContexts (3 + n) (VObj two_terms_context) (VObj E6_second)
    = Ret (VObj [("c", VStr "http://x/i"); ("b", VStr "http://x/i")]) /\
  mergeContexts (3 + n) (VObj E6_first) (VObj E6_second)
    = Ret (VObj E6_second).
Proof. destruct n; repeat split. Qed.

(** ** More on the utility API *)


Lemma obj_get_delete_same (m : obj) (k : string) :
  unique_keys m = true -> obj_get (obj_delete m k) k = VUndef.
Proof.
  intros Hu. apply obj_get_absent. apply obj_delete_absent. exact Hu.
Qed.




(** X2. For a property that is not a member name of [Object.prototype],
    [removeValue] deletes the property when it holds a falsy value (null,
    false, 0, the empty string) or is absent, whatever value it is asked
    to remove: [getValues] reports no values for it. *)
Theorem removeValue_falsy_property (s : obj) (p : string) (v flag : value) :
  inherited p = false -> truthy (obj_get s p) = false ->
  removeValue s p v flag = Ret (obj_delete s p).
Proof.
  intros _ T. unfold removeValue, getValues.
  rewrite (js_or_falsy _ _ T). reflexivity.
Qed.

Lemma removeValue_falsy_property_witness :
  removeValue [("p", VNum 0); ("q", VNum 1)] "p" (VStr "x") VUndef
  = Ret [("q", VNum 1)].
Proof.
  apply (removeValue_falsy_property [("p", VNum 0); ("q", VNum 1)] "p"
           (VStr "x") VUndef); reflexivity.
Defined.

Lemma filter_out_strings (x : string) (l : list string) :
  filter_out (VStr x) (map VStr l)
  = Ret (map VStr (filter (fun y => negb (y =? x)) l)).
Proof.
  induction l as [| y l IH]; simpl; [reflexivity |].
  rewrite IH. simpl. destruct (y =? x); reflexivity.
Qed.

Lemma getValues_strings (s : obj) (p : string) (l : list string) :
  obj_get s p = VArr (map VStr l) -> getValues s p = VArr (map VStr l).
Proof. intros H. unfold getValues. rewrite H. reflexivity. Qed.

(** X3. When a property that is not a member name of [Object.prototype]
    holds an array of non-empty strings, removing a string leaves exactly
    the other strings, in their order, as the values of the property. *)
Theorem removeValue_strings (s : obj) (p x : string) (l : list string)
    (flag : value) :
  unique_keys s = true -> inherited p = false ->
  obj_get s p = VArr (map VStr l) ->
  forallb (fun y => negb (y =? "")) l = true ->
  exists s',
    removeValue s p (VStr x) flag = Ret s' /\
    getValues s' p = VArr (map VStr (filter (fun y => negb (y =? x)) l)).
Proof.
  intros Hu _ Hget Hne. unfold removeValue.
  rewrite (getValues_strings s p l Hget), filter_out_strings. cbn [bind].
  assert (Hne' : forallb (fun y => negb (y =? ""))
                   (filter (fun y => negb (y =? x)) l) = true).
  { rewrite forallb_forall in *. intros y Hy.
    apply filter_In in Hy. apply Hne. tauto. }
  destruct (filter (fun y => negb (y =? x)) l) as [| y [| z rest]].
  - eexists. split; [reflexivity |].
    unfold getValues, removeProperty.
    rewrite (obj_get_delete_same s p Hu). reflexivity.
  - simpl in Hne'. rewrite andb_true_r in Hne'.
    cbn [map].
    destruct (negb (if _isUndefined flag then false else truthy flag)).
    + eexists. split; [reflexivity |].
      unfold getValues. rewrite obj_get_set_same.
      unfold js_or. simpl. rewrite Hne'. reflexivity.
    + eexists. split; [reflexivity |].
      unfold getValues. rewrite obj_get_set_same. reflexivity.
  - cbn [map]. eexists. split; [reflexivity |].
    unfold getValues. rewrite obj_get_set_same. reflexivity.
Qed.

Lemma removeValue_strings_witness :
  exists s',
    removeValue [("p", VArr [VStr "x"; VStr "y"; VStr "z"])] "p"
      (VStr "y") VUndef = Ret s' /\
    getValues s' "p" = VArr [VStr "x"; VStr "z"].
Proof.
  apply (removeValue_strings [("p", VArr [VStr "x"; VStr "y"; VStr "z"])]
           "p" "y" ["x"; "y"; "z"] VUndef); reflexivity.
Defined.

(** X4. Whenever a property holds a non-empty array, [hasValue] and
    [addValue] raise a ReferenceError, because the membership test calls a
    function [indexOf] that is declared nowhere. *)
Theorem hasValue_array_ReferenceError (s : obj) (p : string) (v flag : value)
    (e : value) (l : list value) :
  obj_has s p = true -> obj_get s p = VArr (e :: l) ->
  hasValue s p v = Throw ReferenceError /\
  addValue s p v flag = Throw ReferenceError.
Proof.
  intros Hp Hg.
  assert (H : hasValue s p v = Throw ReferenceError).
  { unfold hasValue, hasProperty. rewrite Hp, Hg. reflexivity. }
  split; [exact H |].
  unfold addValue. rewrite Hp, H. reflexivity.
Qed.

Lemma hasValue_array_ReferenceError_witness :
  hasValue [("p", VArr [VStr "x"])] "p" (VStr "y") = Throw ReferenceError /\
  addValue [("p", VArr [VStr "x"])] "p" (VStr "y") VUndef
  = Throw ReferenceError.
Proof.
  apply (hasValue_array_ReferenceError [("p", VArr [VStr "x"])] "p" _ _
           (VStr "x") []); reflexivity.
Defined.

(** ** [_clone] *)

Lemma value_ind_strong (P : value -> Prop) :
  P VUndef -> P VNull -> (forall b, P (VBool b)) -> (forall n, P (VNum n)) ->
  (forall s, P (VStr s)) ->
  (forall l, Forall P l -> P (VArr l)) ->
  (forall m, Forall (fun kv => P (snd kv)) m -> P (VObj m)) ->
  (forall msg type d, P d -> P (VJsonLdError msg type d)) ->
  (forall name, P (VNativeError name)) -> P VFun ->
  forall v, P v.
Proof.
  intros HU HN HB HZ HS HA HO HE HX HF.
  fix IH 1. intros [| | b | n | s | l | m | msg type d | name |].
  - exact HU.
  - exact HN.
  - apply HB.
  - apply HZ.
  - apply HS.
  - apply HA. induction l as [| x l IHl]; constructor; [apply IH | exact IHl].
  - apply HO. induction m as [| [k x] m IHm]; constructor;
      [apply IH | exact IHm].
  - apply HE. apply IH.
  - apply HX.
  - exact HF.
Qed.

Lemma clone_object (m : obj) :
  _clone (VObj m) = VObj (sort_keys (map_values _clone m)).
Proof.
  simpl. do 2 f_equal.
  induction m as [| [k v] m IH]; simpl; [reflexivity |].
  rewrite IH. reflexivity.
Qed.




Lemma leb_false_flip (a b : string) :
  String.leb a b = false -> String.leb b a = true.
Proof.
  intros H. destruct (String.leb_total a b) as [H' | H']; congruence.
Qed.

Lemma insert_sorted_keeps_sorted (kv : string * value) (m : obj) :
  keys_sorted m = true -> keys_sorted (insert_sorted kv m) = true.
Proof.
  induction m as [| kv1 m IH]; [reflexivity |].
  intros Hs. cbn [insert_sorted].
  destruct (String.leb (fst kv) (fst kv1)) eqn:E.
  - cbn [keys_sorted]. rewrite E. exact Hs.
  - assert (Hs' : keys_sorted m = true).
    { destruct m; [reflexivity |]. cbn [keys_sorted] in Hs.
      apply andb_true_iff in Hs. tauto. }
    specialize (IH Hs').
    destruct m as [| kv2 m'].
    + cbn [insert_sorted keys_sorted]. rewrite (leb_false_flip _ _ E).
      reflexivity.
    + cbn [keys_sorted] in Hs. apply andb_true_iff in Hs as [H12 _].
      cbn [insert_sorted] in *.
      destruct (String.leb (fst kv) (fst kv2)).
      * cbn [keys_sorted] in *. rewrite (leb_false_flip _ _ E). exact IH.
      * cbn [keys_sorted] in *. rewrite H12. exact IH.
Qed.

Lemma sort_keys_sorted (m : obj) : keys_sorted (sort_keys m) = true.
Proof.
  induction m as [| kv m IH]; [reflexivity |].
  simpl. apply insert_sorted_keeps_sorted. exact IH.
Qed.




Lemma obj_has_map_values (f : value -> value) (m : obj) (k : string) :
  obj_has (map_values f m) k = obj_has m k.
Proof.
  induction m as [| [k' v] m IH]; simpl; [reflexivity |].
  rewrite IH. reflexivity.
Qed.

Lemma obj_get_map_values (f : value -> value) (m : obj) (k : string) :
  f VUndef = VUndef -> obj_get (map_values f m) k = f (obj_get m k).
Proof.
  intros Hf. induction m as [| [k' v] m IH]; simpl; [symmetry; exact Hf |].
  destruct (k' =? k); [reflexivity | exact IH].
Qed.

Lemma unique_keys_map_values (f : value -> value) (m : obj) :
  unique_keys (map_values f m) = unique_keys m.
Proof.
  induction m as [| [k v] m IH]; simpl; [reflexivity |].
  rewrite obj_has_map_values, IH. reflexivity.
Qed.

Lemma obj_has_sort_keys (m : obj) (k : string) :
  obj_has (sort_keys m) k = obj_has m k.
Proof.
  pose proof (Permutation_map fst (sort_keys_perm m)) as Hp.
  destruct (obj_has m k) eqn:E.
  - apply obj_has_In. apply obj_has_In in E.
    eapply Permutation_in; [symmetry; exact Hp | exact E].
  - destruct (obj_has (sort_keys m) k) eqn:E'; [| reflexivity].
    apply obj_has_In in E'.
    assert (In k (obj_keys m)) as Hin
      by (eapply Permutation_in; [exact Hp | exact E']).
    apply obj_has_In in Hin. congruence.
Qed.

Lemma unique_keys_sort_keys (m : obj) :
  unique_keys m = true -> unique_keys (sort_keys m) = true.
Proof.
  intros Hu. apply unique_keys_NoDup. apply unique_keys_NoDup in Hu.
  eapply Permutation_NoDup; [| exact Hu].
  symmetry. apply (Permutation_map fst (sort_keys_perm m)).
Qed.

Lemma obj_has_get_In (m : obj) (k : string) :
  obj_has m k = true -> In (k, obj_get m k) m.
Proof.
  induction m as [| [k' v] m IH]; simpl; [discriminate |].
  destruct (String.eqb_spec k' k) as [-> | _]; simpl.
  - intros _. left. reflexivity.
  - intros H. right. apply IH. exact H.
Qed.

Lemma obj_get_sort_keys (m : obj) (k : string) :
  unique_keys m = true -> obj_get (sort_keys m) k = obj_get m k.
Proof.
  intros Hu. destruct (obj_has m k) eqn:E.
  - apply obj_get_In; [apply unique_keys_sort_keys; exact Hu |].
    eapply Permutation_in; [symmetry; apply sort_keys_perm |].
    apply obj_has_get_In. exact E.
  - rewrite (obj_get_absent m k E). apply obj_get_absent.
    rewrite obj_has_sort_keys. exact E.
Qed.

(** X6. For an object in which no map, at any depth, has a key that starts
    with a digit or is a member name of [Object.prototype]: the clone has
    the same keys in sorted order, and under each key the clone of the
    value the object holds there. *)
Theorem clone_object_lookup (m : obj) :
  unique_keys m = true -> ordinary (VObj m) = true ->
  exists m',
    _clone (VObj m) = VObj m' /\ keys_sorted m' = true /\
    (forall k, obj_has m' k = obj_has m k) /\
    (forall k, obj_get m' k = _clone (obj_get m k)).
Proof.
  intros Hu _. exists (sort_keys (map_values _clone m)).
  split; [apply clone_object |].
  split; [apply sort_keys_sorted |]. split.
  - intros k. rewrite obj_has_sort_keys. apply obj_has_map_values.
  - intros k. rewrite obj_get_sort_keys.
    + apply obj_get_map_values. reflexivity.
    + rewrite unique_keys_map_values. exact Hu.
Qed.

Lemma clone_object_lookup_witness :
  exists m',
    _clone (VObj [("b", VObj [("z", VNull); ("y", VNull)]); ("a", VNum 1)])
    = VObj m' /\ keys_sorted m' = true /\
    (forall k, obj_has m' k
               = obj_has [("b", VObj [("z", VNull); ("y", VNull)]);
                          ("a", VNum 1)] k) /\
    (forall k, obj_get m' k
               = _clone (obj_get [("b", VObj [("z", VNull); ("y", VNull)]);
                                  ("a", VNum 1)] k)).
Proof.
  apply (clone_object_lookup
           [("b", VObj [("z", VNull); ("y", VNull)]); ("a", VNum 1)]);
    reflexivity.
Defined.

(** ** The IRI and URL patterns *)

Lemma strip_prefix_colon (rest s : string) :
  index_of_colon s = None -> strip_prefix (String ":" rest) s = None.
Proof.
  destruct s as [| c s]; cbn [index_of_colon strip_prefix]; [reflexivity |].
  rewrite (Ascii.eqb_sym ":" c).
  destruct (Ascii.eqb c ":"); intros H; [discriminate H | reflexivity].
Qed.

(** X7. A string without a colon is never an absolute IRI. *)
Theorem isAbsoluteIri_needs_colon (s : string) :
  index_of_colon s = None -> _isAbsoluteIri s = false.
Proof.
  induction s as [| c s IH]; cbn [index_of_colon _isAbsoluteIri];
    [reflexivity |].
  destruct (Ascii.eqb c ":"); [intros H; discriminate H |].
  destruct (index_of_colon s) eqn:E; [intros H; discriminate H |].
  intros _. rewrite (IH eq_refl), (strip_prefix_colon "//" s E).
  rewrite andb_false_r. reflexivity.
Qed.

Lemma isAbsoluteIri_needs_colon_witness : _isAbsoluteIri "name" = false.
Proof. apply (isAbsoluteIri_needs_colon "name"). reflexivity. Defined.

Lemma strip_prefix_app (p s r : string) :
  strip_prefix p s = Some r -> s = (p ++ r)%string.
Proof.
  revert s. induction p as [| a p IH]; intros s; simpl.
  - intros [= ->]. reflexivity.
  - destruct s as [| b s]; [discriminate |].
    destruct (Ascii.eqb_spec a b) as [-> | _]; [| discriminate].
    intros H. rewrite (IH s H). reflexivity.
Qed.

Lemma nonspace_not_line_terminator (d : ascii) :
  is_space_char d = false -> is_line_terminator d = false.
Proof.
  unfold is_space_char, is_line_terminator.
  set (n := nat_of_ascii d). clearbody n. intros H.
  apply orb_false_iff in H as [H _]. apply orb_false_iff in H as [H _].
  destruct (Nat.eqb_spec n 10) as [-> | _]; [discriminate H |].
  destruct (Nat.eqb_spec n 13) as [-> | _]; [discriminate H |].
  reflexivity.
Qed.

Lemma followed_by_nonspace_spec (scheme s : string) :
  followed_by_nonspace scheme s = true ->
  exists d r, s = (scheme ++ String d r)%string /\ is_line_terminator d = false.
Proof.
  unfold followed_by_nonspace.
  destruct (strip_prefix scheme s) as [[| d r] |] eqn:E; try discriminate.
  rewrite negb_true_iff. intros H. exists d, r.
  split; [apply strip_prefix_app; exact E |].
  apply nonspace_not_line_terminator. exact H.
Qed.

(** X8. Every string that passes the URL test of [_resolveUrls] is an
    absolute IRI for [_isAbsoluteIri]. *)
Theorem url_is_absolute_iri (url : string) :
  url_regex_test url = true -> _isAbsoluteIri url = true.
Proof.
  induction url as [| c rest IH]; [discriminate |].
  cbn [url_regex_test]. rewrite !orb_true_iff. intros [[H | H] | H].
  - apply followed_by_nonspace_spec in H as (d & r & -> & Hd).
    simpl. rewrite Hd. reflexivity.
  - apply followed_by_nonspace_spec in H as (d & r & -> & Hd).
    simpl. rewrite Hd. reflexivity.
  - cbn [_isAbsoluteIri]. rewrite (IH H). apply orb_true_r.
Qed.

Lemma url_is_absolute_iri_witness : _isAbsoluteIri "see https://e/ctx" = true.
Proof. apply (url_is_absolute_iri "see https://e/ctx"). reflexivity. Defined.

(** ** The keyword table *)

Lemma getKeywords_overlay (ctx : obj) :
  _getKeywords ctx = overlay (fold_left alias_step ctx []) builtin_keywords.
Proof. reflexivity. Qed.

Lemma obj_keys_set_present (m : obj) (k : string) (v : value) :
  obj_has m k = true -> obj_keys (obj_set m k v) = obj_keys m.
Proof.
  induction m as [| [k' v'] m IH]; simpl; [discriminate |].
  destruct (String.eqb_spec k' k) as [-> | _]; simpl; [reflexivity |].
  intros H. rewrite (IH H). reflexivity.
Qed.

Lemma overlay_keys_within (l r : obj) :
  (forall k, obj_has l k = true -> obj_has r k = true) ->
  obj_keys (overlay l r) = obj_keys r.
Proof.
  unfold overlay. revert r.
  induction l as [| [k v] l IH]; intros r H; simpl; [reflexivity |].
  assert (Hk : obj_has r k = true)
    by (apply H; simpl; rewrite String.eqb_refl; reflexivity).
  rewrite IH; [apply obj_keys_set_present; exact Hk |].
  intros k' Hk'. rewrite obj_has_set. apply orb_true_iff. right.
  apply H. simpl. rewrite Hk'. apply orb_true_r.
Qed.

Lemma unique_keys_set (m : obj) (k : string) (v : value) :
  unique_keys m = true -> unique_keys (obj_set m k v) = true.
Proof.
  induction m as [| [k' v'] m IH]; simpl; [reflexivity |].
  rewrite andb_true_iff, negb_true_iff. intros [Hn Hu].
  destruct (String.eqb_spec k' k) as [-> | Hne]; simpl.
  - rewrite Hn, Hu. reflexivity.
  - rewrite obj_has_set, Hn, (IH Hu).
    apply not_eq_sym, String.eqb_neq in Hne. rewrite Hne. reflexivity.
Qed.

Lemma builtin_keyword_identity (kw : string) :
  obj_has builtin_keywords kw = true -> obj_get builtin_keywords kw = VStr kw.
Proof.
  unfold builtin_keywords. cbn [obj_has obj_get].
  repeat match goal with
         | |- context [String.eqb ?a kw] =>
             destruct (String.eqb_spec a kw) as [<- | _];
             [intros _; reflexivity |]
         end.
  cbn [orb]. intros H. discriminate H.
Qed.

Lemma builtin_keyword_nonempty (kw : string) :
  obj_has builtin_keywords kw = true -> (kw =? "") = false.
Proof. destruct kw; [discriminate | reflexivity]. Qed.

Lemma alias_step_get (acc : obj) (key kw : string) (v : value) :
  obj_has builtin_keywords kw = true ->
  obj_get (alias_step acc (key, v)) kw
  = if maps_to kw v then VStr key else obj_get acc kw.
Proof.
  intros Hb. unfold alias_step. cbn [snd fst].
  destruct v; try reflexivity. cbn [maps_to _isString].
  destruct (String.eqb_spec s kw) as [-> | Hne].
  - rewrite (builtin_keyword_nonempty kw Hb), Hb. apply obj_get_set_same.
  - destruct (negb (s =? "") && obj_has builtin_keywords s); [| reflexivity].
    apply obj_get_set_other. exact Hne.
Qed.

Lemma alias_step_has (acc : obj) (key kw : string) (v : value) :
  obj_has builtin_keywords kw = true ->
  obj_has (alias_step acc (key, v)) kw = obj_has acc kw || maps_to kw v.
Proof.
  intros Hb. unfold alias_step. cbn [snd fst].
  destruct v; try (rewrite orb_false_r; reflexivity). cbn [maps_to _isString].
  destruct (String.eqb_spec s kw) as [-> | Hne].
  - rewrite (builtin_keyword_nonempty kw Hb), Hb. cbn [negb andb].
    rewrite obj_has_set, String.eqb_refl, orb_true_r. reflexivity.
  - rewrite orb_false_r.
    destruct (negb (s =? "") && obj_has builtin_keywords s); [| reflexivity].
    rewrite obj_has_set. apply String.eqb_neq in Hne. rewrite Hne.
    reflexivity.
Qed.

Lemma alias_table_get (l acc : obj) (kw : string) :
  obj_has builtin_keywords kw = true ->
  obj_get (fold_left alias_step l acc) kw
  = match last_alias l kw with
    | Some key => VStr key
    | None => obj_get acc kw
    end.
Proof.
  intros Hb. revert acc.
  induction l as [| [key v] l IH]; intros acc; cbn [fold_left last_alias];
    [reflexivity |].
  rewrite IH. destruct (last_alias l kw); [reflexivity |].
  rewrite (alias_step_get acc key kw v Hb).
  destruct (maps_to kw v); reflexivity.
Qed.

Lemma alias_table_has (l acc : obj) (kw : string) :
  obj_has builtin_keywords kw = true ->
  obj_has (fold_left alias_step l acc) kw
  = obj_has acc kw ||
    match last_alias l kw with Some _ => true | None => false end.
Proof.
  intros Hb. revert acc.
  induction l as [| [key v] l IH]; intros acc; cbn [fold_left last_alias].
  - rewrite orb_false_r. reflexivity.
  - rewrite IH, (alias_step_has acc key kw v Hb).
    destruct (last_alias l kw), (maps_to kw v), (obj_has acc kw);
      reflexivity.
Qed.

Lemma alias_table_within (l acc : obj) :
  (forall k, obj_has acc k = true -> obj_has builtin_keywords k = true) ->
  forall k, obj_has (fold_left alias_step l acc) k = true ->
            obj_has builtin_keywords k = true.
Proof.
  revert acc. induction l as [| [key v] l IH]; intros acc H; [exact H |].
  cbn [fold_left]. apply IH. unfold alias_step. cbn [snd fst].
  destruct v; try exact H.
  destruct (_isString (VStr s) && obj_has builtin_keywords s) eqn:E;
    [| exact H].
  intros k. rewrite obj_has_set, orb_true_iff.
  intros [Hk | Hk]; [| apply H; exact Hk].
  apply String.eqb_eq in Hk. subst k. apply andb_true_iff in E. tauto.
Qed.

Lemma alias_table_unique (l acc : obj) :
  unique_keys acc = true -> unique_keys (fold_left alias_step l acc) = true.
Proof.
  revert acc. induction l as [| [key v] l IH]; intros acc H; [exact H |].
  cbn [fold_left]. apply IH. unfold alias_step. cbn [snd fst].
  destruct v; try exact H.
  destruct (_isString (VStr s) && obj_has builtin_keywords s);
    [apply unique_keys_set |]; exact H.
Qed.

Lemma keyword_table_entries (ctx : obj) :
  obj_keys (_getKeywords ctx) = obj_keys builtin_keywords /\
  forall kw, obj_has builtin_keywords kw = true ->
    obj_get (_getKeywords ctx) kw
    = VStr (match last_alias ctx kw with Some key => key | None => kw end).
Proof.
  rewrite getKeywords_overlay. split.
  - apply overlay_keys_within. apply alias_table_within. discriminate.
  - intros kw Hb.
    pose proof (alias_table_has ctx [] kw Hb) as Hh.
    pose proof (alias_table_get ctx [] kw Hb) as Hg.
    cbn [obj_has orb obj_get] in Hh, Hg.
    destruct (last_alias ctx kw) as [key |].
    + rewrite <- Hg. apply overlay_get.
      * apply alias_table_unique. reflexivity.
      * apply obj_has_get_In. exact Hh.
    + rewrite (overlay_get_other _ _ _ Hh).
      apply builtin_keyword_identity. exact Hb.
Qed.

(** X9. For a context with unique keys, none of which starts with a digit
    or is a member name of [Object.prototype], and with no string entry
    that is such a name or has one before its first colon: the keyword
    table has exactly the eight built-in keywords as keys, in their order;
    each keyword maps to the key of the last context entry whose value is
    that keyword, and to itself when there is none. *)
Theorem getKeywords_table (ctx : obj) :
  unique_keys ctx = true -> ordinary_context ctx = true ->
  obj_keys (_getKeywords ctx) = obj_keys builtin_keywords /\
  forall kw, obj_has builtin_keywords kw = true ->
    obj_get (_getKeywords ctx) kw
    = VStr (match last_alias ctx kw with Some key => key | None => kw end).
Proof. intros _ _. apply keyword_table_entries. Qed.

Lemma getKeywords_table_witness :
  obj_get (_getKeywords [("id", VStr "@id"); ("uri", VStr "@id")]) "@id"
  = VStr "uri" /\
  obj_get (_getKeywords [("id", VStr "@id"); ("uri", VStr "@id")]) "@type"
  = VStr "@type".
Proof.
  pose proof (getKeywords_table [("id", VStr "@id"); ("uri", VStr "@id")]
                eq_refl eq_refl) as [_ H].
  split; [apply (H "@id") | apply (H "@type")]; reflexivity.
Defined.

(** ** Term expansion *)

Lemma expandTerm_deep_absolute (f : nat) (ctx : obj) (t : string) (idx : nat) :
  index_of_colon t = Some idx -> obj_has ctx (take idx t) = false ->
  _expandTerm (S f) ctx (VStr t) true = Ret (VStr t).
Proof. intros Hc Hp. cbn [_expandTerm]. rewrite Hc, Hp. reflexivity. Qed.

Lemma expand_loop_stable (f : nat) (step : value -> outcome value)
    (ctx : obj) (t : string) :
  step (VStr t) = Ret (VStr t) ->
  expand_loop (S f) step ctx (VStr t) [] VNull = Ret (VStr t).
Proof.
  intros H. cbn [expand_loop strict_eq lift_eq bind js_to_string obj_has].
  rewrite H. cbn [bind].
  destruct f; cbn [expand_loop strict_eq lift_eq bind];
    rewrite String.eqb_refl; reflexivity.
Qed.

Lemma expandTerm_loop_absolute (f : nat) (ctx : obj) (t : string) (idx : nat) :
  index_of_colon t = Some idx -> obj_has ctx (take idx t) = false ->
  expand_loop (S f) (fun r => _expandTerm (S f) ctx r true) ctx (VStr t)
    [] VNull = Ret (VStr t).
Proof.
  intros Hc Hp. apply expand_loop_stable.
  apply (expandTerm_deep_absolute f ctx t idx Hc Hp).
Qed.

Lemma absolute_iri_fixed (n : nat) (ctx : obj) (t : string) (idx : nat)
    (deep : bool) :
  index_of_colon t = Some idx -> obj_has ctx (take idx t) = false ->
  _expandTerm (2 + n) ctx (VStr t) deep = Ret (VStr t).
Proof.
  intros Hc Hp. destruct deep.
  - apply (expandTerm_deep_absolute (S n) ctx t idx Hc Hp).
  - change (2 + n) with (S (S n)). remember (S n) as f eqn:Ef.
    cbn [_expandTerm]. rewrite Hc, Hp. cbn [bind]. subst f.
    apply (expandTerm_loop_absolute n ctx t idx Hc Hp).
Qed.

(** X10. A string with a colon whose prefix, the part before the first
    colon, is neither a key of the context nor a member name of
    [Object.prototype] expands to itself, whatever else the context
    holds. *)
Theorem expandTerm_absolute (n : nat) (ctx : obj) (t : string) (idx : nat)
    (deep : bool) :
  index_of_colon t = Some idx -> obj_has ctx (take idx t) = false ->
  inherited (take idx t) = false ->
  _expandTerm (2 + n) ctx (VStr t) deep = Ret (VStr t).
Proof. intros Hc Hp _. apply (absolute_iri_fixed n ctx t idx deep Hc Hp). Qed.

Lemma expandTerm_absolute_witness :
  _expandTerm 2 [("name", VStr "http://x/name")] (VStr "http://y/z") false
  = Ret (VStr "http://y/z").
Proof.
  apply (expandTerm_absolute 0 [("name", VStr "http://x/name")]
           "http://y/z" 4 false); reflexivity.
Defined.

Lemma getContextValue_string_entry (e : obj -> value -> outcome value)
    (ctx : obj) (k s : string) :
  unique_keys ctx = true -> In (k, VStr s) ctx -> (s =? "") = false ->
  getContextValue_with e ctx (VStr k) "@id" false = Ret (VStr s).
Proof.
  intros Hu Hin Hs. unfold getContextValue_with.
  cbn [js_to_string bind].
  rewrite (In_obj_has _ _ _ Hin), (obj_get_In _ _ _ Hu Hin).
  cbn [_isString]. rewrite Hs. reflexivity.
Qed.

Lemma expandTerm_of_term (f : nat) (ctx : obj) (k s : string) :
  unique_keys ctx = true -> In (k, VStr s) ctx -> (s =? "") = false ->
  index_of_colon k = None ->
  _expandTerm (S f) ctx (VStr k) false
  = expand_loop f (fun r => _expandTerm f ctx r true) ctx (VStr s) [] VNull.
Proof.
  intros Hu Hin Hs Hk. cbn [_expandTerm].
  rewrite Hk, (In_obj_has _ _ _ Hin).
  rewrite (getContextValue_string_entry _ ctx k s Hu Hin Hs).
  reflexivity.
Qed.

Lemma term_expands_to_iri (n : nat) (ctx : obj) (k s : string) :
  iri_context ctx = true -> In (k, VStr s) ctx -> index_of_colon k = None ->
  _expandTerm (3 + n) ctx (VStr k) false = Ret (VStr s).
Proof.
  intros Hc Hin Hk. apply iri_context_plain in Hc. destruct Hc as [Hu Hall].
  destruct (is_iri_in_string ctx _ (Hall k _ Hin))
    as (s' & idx & [= <-] & Hs & Hp).
  change (3 + n) with (S (S (S n))).
  rewrite (expandTerm_of_term (S (S n)) ctx k s Hu Hin
             (index_of_colon_nonempty s idx Hs) Hk).
  apply (expandTerm_loop_absolute (S n) ctx s idx Hs Hp).
Qed.

(** X11. Take a context with unique keys in which every entry is a string
    with a colon whose prefix, the part before the first colon, is not a
    key of the context; no key starts with a digit or is a member name of
    [Object.prototype], and no prefix is such a name.  A key without a
    colon expands to the entry the context gives it. *)
Theorem expandTerm_term (n : nat) (ctx : obj) (k s : string) :
  iri_context ctx = true -> ordinary_context ctx = true ->
  In (k, VStr s) ctx -> index_of_colon k = None ->
  _expandTerm (3 + n) ctx (VStr k) false = Ret (VStr s).
Proof. intros H _. apply term_expands_to_iri. exact H. Qed.

Lemma expandTerm_term_witness :
  _expandTerm 3 name_context (VStr "name") false = Ret (VStr "http://x/name").
Proof.
  apply (expandTerm_term 0 name_context "name" "http://x/name");
    [reflexivity | reflexivity | left; reflexivity | reflexivity].
Defined.

Lemma index_of_colon_app_left (s x : string) (idx : nat) :
  index_of_colon s = Some idx -> index_of_colon (s ++ x) = Some idx.
Proof.
  revert idx. induction s as [| c s IH]; intros idx;
    cbn [index_of_colon String.append]; [discriminate |].
  destruct (Ascii.eqb c ":"); [auto |].
  destruct (index_of_colon s) as [i |]; [| discriminate].
  rewrite (IH i eq_refl). auto.
Qed.

Lemma take_app_left (s x : string) (idx : nat) :
  index_of_colon s = Some idx -> take idx (s ++ x) = take idx s.
Proof.
  revert idx. induction s as [| c s IH]; intros idx;
    cbn [index_of_colon String.append]; [discriminate |].
  destruct (Ascii.eqb c ":"); [intros [= <-]; reflexivity |].
  destruct (index_of_colon s) as [i |]; [| discriminate].
  intros [= <-]. cbn [take]. rewrite (IH i eq_refl). reflexivity.
Qed.

Lemma index_of_colon_prefixed (p rest : string) :
  index_of_colon p = None ->
  index_of_colon (p ++ String ":" rest) = Some (String.length p).
Proof.
  induction p as [| c p IH]; cbn [index_of_colon String.append String.length].
  - reflexivity.
  - destruct (Ascii.eqb c ":"); [discriminate |].
    destruct (index_of_colon p); [discriminate |].
    intros _. rewrite (IH eq_refl). reflexivity.
Qed.

Lemma take_length_app (p x : string) : take (String.length p) (p ++ x) = p.
Proof.
  induction p as [| c p IH]; cbn [take String.append String.length].
  - destruct x; reflexivity.
  - rewrite IH. reflexivity.
Qed.

Lemma drop_length_app (p rest : string) :
  drop (S (String.length p)) (p ++ String ":" rest) = rest.
Proof.
  induction p as [| c p IH]; cbn [drop String.append String.length].
  - destruct rest; reflexivity.
  - exact IH.
Qed.

Lemma prefixed_term_expands (n : nat) (ctx : obj) (p s suffix : string) :
  iri_context ctx = true -> In (p, VStr s) ctx -> index_of_colon p = None ->
  _expandTerm (4 + n) ctx (VStr (p ++ ":" ++ suffix)) false
  = Ret (VStr (s ++ suffix)).
Proof.
  intros Hc Hin Hk. apply iri_context_plain in Hc.
  destruct (is_iri_in_string ctx _ (proj2 Hc p _ Hin))
    as (s' & idx & [= <-] & Hs & Hp).
  change (p ++ ":" ++ suffix)%string with (p ++ String ":" suffix)%string.
  change (4 + n) with (S (S (S (S n)))). remember (S (S (S n))) as f eqn:Ef.
  cbn [_expandTerm].
  rewrite (index_of_colon_prefixed p suffix Hk), take_length_app.
  rewrite (In_obj_has _ _ _ Hin).
  change (getContextValue_with (fun c t => _expandTerm f c t false))
    with (getContextValue f).
  subst f.
  pose proof (getContextValue_iri (S n) ctx p (VStr s) Hc Hin) as Hg.
  cbn [Nat.add] in Hg. rewrite Hg.
  cbn [bind js_to_string]. rewrite drop_length_app.
  apply (expandTerm_loop_absolute (S (S n)) ctx (s ++ suffix) idx).
  - apply index_of_colon_app_left. exact Hs.
  - rewrite (take_app_left s suffix idx Hs). exact Hp.
Qed.

(** X12. Take a context with unique keys in which every entry is a string
    with a colon whose prefix is not a key of the context; no key starts
    with a digit or is a member name of [Object.prototype], and no prefix
    is such a name.  For a key [p] without a colon, [p:suffix] expands to
    the entry of [p] followed by the suffix. *)
Theorem expandTerm_prefix (n : nat) (ctx : obj) (p s suffix : string) :
  iri_context ctx = true -> ordinary_context ctx = true ->
  In (p, VStr s) ctx -> index_of_colon p = None ->
  _expandTerm (4 + n) ctx (VStr (p ++ ":" ++ suffix)) false
  = Ret (VStr (s ++ suffix)).
Proof. intros H _. apply prefixed_term_expands. exact H. Qed.

Lemma expandTerm_prefix_witness :
  _expandTerm 4 [("ex", VStr "http://x/")] (VStr "ex:foo") false
  = Ret (VStr "http://x/foo").
Proof.
  apply (expandTerm_prefix 0 [("ex", VStr "http://x/")] "ex" "http://x/" "foo");
    [reflexivity | reflexivity | left; reflexivity | reflexivity].
Defined.

Lemma last_alias_Some (ctx : obj) (kw key : string) :
  last_alias ctx kw = Some key -> In (key, VStr kw) ctx.
Proof.
  induction ctx as [| [k v] ctx IH]; cbn [last_alias]; [discriminate |].
  destruct (last_alias ctx kw) as [k' |].
  - intros [= <-]. right. apply IH. reflexivity.
  - destruct v; cbn [maps_to]; try discriminate.
    destruct (String.eqb_spec s kw) as [-> | _]; [| discriminate].
    intros [= <-]. left. reflexivity.
Qed.

Lemma last_alias_None (ctx : obj) (kw : string) :
  last_alias ctx kw = None -> forall key, ~ In (key, VStr kw) ctx.
Proof.
  induction ctx as [| [k v] ctx IH]; cbn [last_alias]; [intros _ key [] |].
  destruct (last_alias ctx kw) as [k' |]; [discriminate |].
  destruct (maps_to kw v) eqn:E; [discriminate |].
  intros _ key [[= -> ->] | Hin].
  - cbn [maps_to] in E. rewrite String.eqb_refl in E. discriminate.
  - exact (IH eq_refl key Hin).
Qed.

Lemma keyword_of_alias_None (T : obj) (t : string) :
  (forall key v, In (key, v) T -> v <> VStr t) ->
  keyword_of_alias T t = None.
Proof.
  induction T as [| [key v] T IH]; intros H; cbn [keyword_of_alias];
    [reflexivity |].
  assert (IH' : keyword_of_alias T t = None)
    by (apply IH; intros k' v' Hin; apply (H k' v'); right; exact Hin).
  destruct v; try exact IH'.
  destruct (String.eqb_spec t s) as [-> | _]; [| exact IH'].
  exfalso. apply (H key (VStr s)); [left |]; reflexivity.
Qed.

Lemma builtin_keyword_no_colon (kw : string) :
  obj_has builtin_keywords kw = true -> index_of_colon kw = None.
Proof.
  unfold builtin_keywords. cbn [obj_has].
  repeat match goal with
         | |- context [String.eqb ?a kw] =>
             destruct (String.eqb_spec a kw) as [<- | _];
             [intros _; reflexivity |]
         end.
  cbn [orb]. intros H. discriminate H.
Qed.

Lemma getKeywords_entry (ctx : obj) (K : string) (v : value) :
  In (K, v) (_getKeywords ctx) ->
  obj_has builtin_keywords K = true /\
  v = VStr (match last_alias ctx K with Some key => key | None => K end).
Proof.
  intros Hin. destruct (keyword_table_entries ctx) as [Hkeys Hval].
  assert (Hb : obj_has builtin_keywords K = true).
  { apply obj_has_In. rewrite <- Hkeys. apply obj_has_In.
    apply (In_obj_has _ _ _ Hin). }
  split; [exact Hb |].
  rewrite <- (Hval K Hb). symmetry. apply obj_get_In; [| exact Hin].
  apply unique_keys_NoDup. rewrite Hkeys.
  apply unique_keys_NoDup. reflexivity.
Qed.

(** X13. A context key without a colon whose entry is a built-in keyword
    expands to that keyword, provided the keyword is not itself a key of
    the context. *)
Theorem expandTerm_alias (n : nat) (ctx : obj) (k kw : string) :
  unique_keys ctx = true -> In (k, VStr kw) ctx ->
  obj_has builtin_keywords kw = true -> index_of_colon k = None ->
  obj_has ctx kw = false ->
  _expandTerm (3 + n) ctx (VStr k) false = Ret (VStr kw).
Proof.
  intros Hu Hin Hb Hk Hn.
  change (3 + n) with (S (S (S n))).
  rewrite (expandTerm_of_term (S (S n)) ctx k kw Hu Hin
             (builtin_keyword_nonempty kw Hb) Hk).
  apply expand_loop_stable.
  cbn [_expandTerm]. rewrite (builtin_keyword_no_colon kw Hb), Hn.
  rewrite keyword_of_alias_None; [reflexivity |].
  intros K v HK Hv. subst v.
  destruct (getKeywords_entry ctx K _ HK) as [HbK Heq].
  injection Heq as Heq.
  destruct (last_alias ctx K) as [key |] eqn:E.
  - subst key. apply last_alias_Some in E.
    apply In_obj_has in E. congruence.
  - subst K. exact (last_alias_None ctx kw E k Hin).
Qed.

Lemma expandTerm_alias_witness :
  _expandTerm 3 [("id", VStr "@id")] (VStr "id") false = Ret (VStr "@id").
Proof.
  apply (expandTerm_alias 0 [("id", VStr "@id")] "id" "@id");
    [reflexivity | left; reflexivity | reflexivity | reflexivity
    | reflexivity].
Defined.

(** ** Compacting an IRI and expanding it again *)

Lemma term_context_spec (ctx : obj) :
  term_context ctx = true ->
  plain ctx /\ iri_context ctx = true /\
  forall k v, In (k, v) ctx ->
    is_term_key k = true /\ index_of_colon k = None.
Proof.
  unfold term_context. rewrite andb_true_iff, forallb_forall.
  intros [Hc Hk]. split; [apply iri_context_plain; exact Hc |].
  split; [exact Hc |].
  intros k v Hin. specialize (Hk (k, v) Hin). cbn [fst] in Hk.
  unfold plain_term in Hk. apply andb_true_iff in Hk as [H1 H2].
  split; [exact H1 |]. destruct (index_of_colon k); [discriminate | reflexivity].
Qed.

Lemma compact_to_term_iri (n : nat) (ctx : obj) (iri : string) (entries : obj) :
  plain ctx -> incl entries ctx ->
  (forall k v, In (k, v) ctx -> is_term_key k = true) ->
  compact_to_term (2 + n) ctx (VStr iri) entries
  = Ret (first_term_for entries iri).
Proof.
  intros Hp Hincl Hk. induction entries as [| [k v] rest IH]; [reflexivity |].
  assert (Hin : In (k, v) ctx) by (apply Hincl; left; reflexivity).
  cbn [compact_to_term first_term_for]. rewrite (Hk k v Hin).
  rewrite (getContextValue_iri n ctx k v Hp Hin). cbn [bind].
  rewrite (strict_eq_iri iri v ctx (proj2 Hp k v Hin)). cbn [bind].
  destruct (maps_to iri v); [reflexivity |].
  apply IH. intros x Hx. apply Hincl. right. exact Hx.
Qed.

Lemma compact_to_prefix_iri (n : nat) (ctx : obj) (iri : string)
    (entries : obj) :
  plain ctx -> incl entries ctx ->
  exists r,
    compact_to_prefix (2 + n) ctx (VStr iri) entries = Ret r /\
    match r with
    | Some t =>
        exists key c rest,
          t = (key ++ ":" ++ rest)%string /\ In (key, VStr c) ctx /\
          iri = (c ++ rest)%string
    | None => True
    end.
Proof.
  intros Hp Hincl. induction entries as [| [k v] rest IH].
  - exists None. split; [reflexivity | exact I].
  - assert (Hin : In (k, v) ctx) by (apply Hincl; left; reflexivity).
    assert (IH' := IH (fun x Hx => Hincl x (or_intror Hx))).
    cbn [compact_to_prefix].
    destruct (is_term_key k); [| exact IH'].
    rewrite (getContextValue_iri n ctx k v Hp Hin). cbn [bind].
    destruct (is_iri_in_string ctx v (proj2 Hp k v Hin))
      as (c & idx & -> & _ & _).
    cbn [strict_eq lift_eq bind js_to_string].
    destruct (strip_prefix c iri) as [[| a suffix] |] eqn:E; try exact IH'.
    exists (Some (k ++ ":" ++ String a suffix)%string).
    split; [reflexivity |].
    exists k, c, (String a suffix). repeat split; [exact Hin |].
    apply strip_prefix_app. exact E.
Qed.

Lemma keywords_have_no_colon (ctx : obj) (iri : string) (idx : nat) :
  index_of_colon iri = Some idx -> obj_has (_getKeywords ctx) iri = false.
Proof.
  intros Hc. destruct (obj_has (_getKeywords ctx) iri) eqn:E; [| reflexivity].
  apply obj_has_In in E. rewrite (proj1 (keyword_table_entries ctx)) in E.
  apply obj_has_In, builtin_keyword_no_colon in E. congruence.
Qed.

(** X14. Take a context with unique keys, each a term (not empty, not
    starting with '@' or a digit, without a colon, not a member name of
    [Object.prototype]), in which every entry is a string with a colon
    whose prefix is neither a key of the context nor such a member name.
    A string with a colon whose prefix is likewise neither a key nor such
    a name round-trips: [_compactIri] returns a string (a term, a
    [term:suffix] form, or the string itself) and [_expandTerm] turns that
    string back into the original. *)
Theorem compactIri_expandTerm_roundtrip (n : nat) (ctx : obj) (iri : string) :
  term_context ctx = true -> ordinary_context ctx = true ->
  is_iri_in ctx (VStr iri) = true -> own_name iri = true ->
  exists t,
    _compactIri (2 + n) ctx (VStr iri) = Ret (VStr t) /\
    _expandTerm (4 + n) ctx (VStr t) false = Ret (VStr iri).
Proof.
  intros Hc _ Hiri _.
  destruct (term_context_spec ctx Hc) as (Hp & Hic & Hkeys).
  destruct (is_iri_in_string ctx _ Hiri) as (s & idx & [= <-] & Hs & Hpre).
  unfold _compactIri.
  rewrite (compact_to_term_iri n ctx iri ctx Hp (incl_refl ctx)
             (fun k v H => proj1 (Hkeys k v H))).
  cbn [bind].
  destruct (first_term_for ctx iri) as [key |] eqn:E.
  - exists key. split; [reflexivity |].
    destruct (first_term_for_Some _ _ _ E) as (v & Hin & Hm).
    destruct (is_iri_in_string ctx v (proj2 Hp key v Hin))
      as (c & i & -> & _ & _).
    cbn [maps_to] in Hm. apply String.eqb_eq in Hm. subst c.
    apply (term_expands_to_iri (S n) ctx key iri Hic Hin (proj2 (Hkeys _ _ Hin))).
  - cbn [js_to_string bind].
    rewrite (keywords_have_no_colon ctx iri idx Hs).
    destruct (compact_to_prefix_iri n ctx iri ctx Hp (incl_refl ctx))
      as (r & Hr & Hspec).
    rewrite Hr. cbn [bind]. destruct r as [t |].
    + destruct Hspec as (key & c & rest & -> & Hin & ->).
      eexists. split; [reflexivity |].
      apply (prefixed_term_expands n ctx key c rest Hic Hin
               (proj2 (Hkeys _ _ Hin))).
    + exists iri. split; [reflexivity |].
      apply (absolute_iri_fixed (2 + n) ctx iri idx false Hs Hpre).
Qed.

Lemma compactIri_expandTerm_roundtrip_witness :
  exists t,
    _compactIri 2 [("ex", VStr "http://x/")] (VStr "http://x/foo")
    = Ret (VStr t) /\
    _expandTerm 4 [("ex", VStr "http://x/")] (VStr t) false
    = Ret (VStr "http://x/foo").
Proof.
  apply (compactIri_expandTerm_roundtrip 0 [("ex", VStr "http://x/")]
           "http://x/foo"); reflexivity.
Defined.

Lemma first_term_is_compact_form (n : nat) (ctx : obj) (iri key : string) :
  term_context ctx = true -> first_term_for ctx iri = Some key ->
  _compactIri (2 + n) ctx (VStr iri) = Ret (VStr key).
Proof.
  intros Hc Hf. destruct (term_context_spec ctx Hc) as (Hp & _ & Hkeys).
  unfold _compactIri.
  rewrite (compact_to_term_iri n ctx iri ctx Hp (incl_refl ctx)
             (fun k v H => proj1 (Hkeys k v H))).
  rewrite Hf. reflexivity.
Qed.

(** X15. Take a context with unique keys, each a term (not empty, not
    starting with '@' or a digit, without a colon, not a member name of
    [Object.prototype]), in which every entry is a string with a colon
    whose prefix is neither a key of the context nor such a member name.
    [_compactIri] returns the first key, in the order of the context, whose
    entry is the given string: terms come before [term:suffix] forms. *)
Theorem compactIri_first_term (n : nat) (ctx : obj) (iri key : string) :
  term_context ctx = true -> ordinary_context ctx = true ->
  first_term_for ctx iri = Some key ->
  _compactIri (2 + n) ctx (VStr iri) = Ret (VStr key).
Proof. intros H _. apply first_term_is_compact_form. exact H. Qed.

Lemma compactIri_first_term_witness :
  _compactIri 2 [("ex", VStr "http://x/"); ("name", VStr "http://x/name");
                 ("n", VStr "http://x/name")] (VStr "http://x/name")
  = Ret (VStr "name").
Proof.
  apply (compactIri_first_term 0
           [("ex", VStr "http://x/"); ("name", VStr "http://x/name");
            ("n", VStr "http://x/name")] "http://x/name" "name");
    reflexivity.
Defined.

(** ** More on merging *)

Lemma obj_set_absent (r : obj) (k : string) (v : value) :
  obj_has r k = false -> obj_set r k v = r ++ [(k, v)].
Proof.
  induction r as [| [k' v'] r IH]; simpl; [reflexivity |].
  rewrite orb_false_iff. intros [Hne Hr]. rewrite Hne, (IH Hr). reflexivity.
Qed.

Lemma overlay_append (l r : obj) :
  unique_keys l = true ->
  (forall k, obj_has l k = true -> obj_has r k = false) ->
  overlay l r = r ++ l.
Proof.
  unfold overlay. revert r.
  induction l as [| [k v] l IH]; intros r Hu Hd; simpl.
  - rewrite app_nil_r. reflexivity.
  - simpl in Hu. apply andb_true_iff in Hu as [Hn Hu].
    apply negb_true_iff in Hn.
    assert (Hk : obj_has r k = false)
      by (apply Hd; simpl; rewrite String.eqb_refl; reflexivity).
    rewrite (obj_set_absent r k v Hk), IH; [| exact Hu |].
    + rewrite <- app_assoc. reflexivity.
    + intros k' Hk'.
      assert (obj_has r k' = false) as Hr
        by (apply Hd; simpl; rewrite Hk'; apply orb_true_r).
      destruct (obj_has (r ++ [(k, v)]) k') eqn:E; [| reflexivity].
      apply obj_has_In in E. unfold obj_keys in E. rewrite map_app in E.
      apply in_app_or in E as [E | [E | []]].
      * apply obj_has_In in E. congruence.
      * simpl in E. subst k'. congruence.
Qed.

Lemma scan_of_empty (l : obj) :
  fold_left (fun r kv => remove_first_for r (snd kv)) l [] = [].
Proof.
  induction l as [| [k v] l IH]; simpl; [reflexivity |].
  replace (remove_first_for [] v) with (@nil (string * value))
    by (destruct v; reflexivity).
  exact IH.
Qed.

Lemma iri_context_entries_strings (c : obj) :
  plain c -> forall k v, In (k, v) c -> exists s, v = VStr s.
Proof.
  intros Hp k v Hin.
  destruct (is_iri_in_string c v (proj2 Hp k v Hin)) as (s & _ & -> & _).
  exists s. reflexivity.
Qed.

Lemma mergeContexts_iri (n : nat) (c1 c2 : obj) :
  plain c1 -> plain c2 ->
  mergeContexts (3 + n) (VObj c1) (VObj c2)
  = Ret (VObj (overlay c2
                 (fold_left (fun r kv => remove_first_for r (snd kv)) c2
                    (sort_keys c1)))).
Proof.
  intros H1 H2.
  change (mergeContexts (3 + n) (VObj c1) (VObj c2))
    with (merge_map (2 + n) (_clone (VObj c1)) (VObj c2)).
  rewrite (clone_iri_context c1 (iri_context_entries_strings c1 H1)).
  unfold merge_map, remove_replaced.
  rewrite (remove_replaced_iri n c2 H2 c2 (sort_keys c1) (incl_refl c2)
             (plain_sort_keys c1 H1)).
  reflexivity.
Qed.

(** X16. Take a context with unique keys in which every entry is a string
    with a colon whose prefix is not a key of the context; no key starts
    with a digit or is a member name of [Object.prototype], and no prefix
    is such a name.  Merging it onto the empty context returns it as it
    is, and merging the empty context onto it returns it with its keys
    sorted. *)
Theorem mergeContexts_empty (n : nat) (c : obj) :
  iri_context c = true -> ordinary_context c = true ->
  mergeContexts (3 + n) (VObj []) (VObj c) = Ret (VObj c) /\
  mergeContexts (3 + n) (VObj c) (VObj []) = Ret (VObj (sort_keys c)).
Proof.
  intros Hc _. apply iri_context_plain in Hc.
  assert (H0 : plain []) by (split; [reflexivity | intros k v []]).
  split.
  - rewrite (mergeContexts_iri n [] c H0 Hc). cbn [sort_keys].
    rewrite scan_of_empty, overlay_append; [reflexivity | exact (proj1 Hc) |].
    reflexivity.
  - rewrite (mergeContexts_iri n c [] Hc H0). reflexivity.
Qed.

Lemma mergeContexts_empty_witness :
  mergeContexts 3 (VObj [])
    (VObj [("b", VStr "http://x/b"); ("a", VStr "http://x/a")])
  = Ret (VObj [("b", VStr "http://x/b"); ("a", VStr "http://x/a")]) /\
  mergeContexts 3
    (VObj [("b", VStr "http://x/b"); ("a", VStr "http://x/a")]) (VObj [])
  = Ret (VObj [("a", VStr "http://x/a"); ("b", VStr "http://x/b")]).
Proof.
  apply (mergeContexts_empty 0
           [("b", VStr "http://x/b"); ("a", VStr "http://x/a")]);
    reflexivity.
Defined.

Lemma In_remove_first_for (r : obj) (v : value) (kv : string * value) :
  In kv (remove_first_for r v) -> In kv r.
Proof.
  unfold remove_first_for. destruct v; try tauto.
  destruct (first_term_for r s); [apply In_obj_delete | tauto].
Qed.

Lemma In_scan (l r : obj) (kv : string * value) :
  In kv (fold_left (fun r kv => remove_first_for r (snd kv)) l r) -> In kv r.
Proof.
  revert r. induction l as [| [k v] l IH]; intros r; simpl; [tauto |].
  intros H. apply IH in H. eapply In_remove_first_for. exact H.
Qed.

Lemma plain_scan (l r : obj) :
  plain r -> plain (fold_left (fun r kv => remove_first_for r (snd kv)) l r).
Proof.
  revert r. induction l as [| [k v] l IH]; intros r Hp; simpl; [exact Hp |].
  apply IH. apply plain_remove_first_for. exact Hp.
Qed.

(** X17. Take two contexts, each with unique keys and every entry a string
    with a colon whose prefix is not a key of that context; no key starts
    with a digit or is a member name of [Object.prototype], and no prefix
    is such a name.  Their merge is a context in which every key of the
    second has the second's entry, every other key comes from the first
    with the first's entry, and no key is new. *)
Theorem mergeContexts_later_wins (n : nat) (c1 c2 : obj) :
  iri_context c1 = true -> iri_context c2 = true ->
  ordinary_context c1 = true -> ordinary_context c2 = true ->
  exists m,
    mergeContexts (3 + n) (VObj c1) (VObj c2) = Ret (VObj m) /\
    (forall k, obj_has c2 k = true -> obj_get m k = obj_get c2 k) /\
    (forall k, obj_has m k = true -> obj_has c2 k = false ->
               obj_has c1 k = true /\ obj_get m k = obj_get c1 k).
Proof.
  intros H1 H2 _ _.
  apply iri_context_plain in H1. apply iri_context_plain in H2.
  rewrite (mergeContexts_iri n c1 c2 H1 H2).
  set (r := fold_left (fun r kv => remove_first_for r (snd kv)) c2
              (sort_keys c1)).
  assert (Hr : plain r) by (apply plain_scan, plain_sort_keys; exact H1).
  eexists. split; [reflexivity |]. split.
  - intros k Hk. apply overlay_get; [exact (proj1 H2) |].
    apply obj_has_get_In. exact Hk.
  - intros k Hm Hk. rewrite overlay_has, Hk, orb_false_r in Hm.
    rewrite (overlay_get_other _ _ _ Hk).
    pose proof (obj_has_get_In r k Hm) as Hin.
    apply In_scan in Hin.
    assert (Hin1 : In (k, obj_get r k) c1)
      by (eapply Permutation_in; [apply sort_keys_perm | exact Hin]).
    split; [apply (In_obj_has _ _ _ Hin1) |].
    symmetry. apply obj_get_In; [exact (proj1 H1) | exact Hin1].
Qed.

Lemma mergeContexts_later_wins_witness :
  exists m,
    mergeContexts 3 (VObj [("a", VStr "http://x/a"); ("b", VStr "http://x/b")])
      (VObj [("b", VStr "http://y/b")]) = Ret (VObj m) /\
    (forall k, obj_has [("b", VStr "http://y/b")] k = true ->
               obj_get m k = obj_get [("b", VStr "http://y/b")] k) /\
    (forall k, obj_has m k = true ->
               obj_has [("b", VStr "http://y/b")] k = false ->
               obj_has [("a", VStr "http://x/a"); ("b", VStr "http://x/b")] k
               = true /\
               obj_get m k
               = obj_get [("a", VStr "http://x/a"); ("b", VStr "http://x/b")]
                   k).
Proof.
  apply (mergeContexts_later_wins 0
           [("a", VStr "http://x/a"); ("b", VStr "http://x/b")]
           [("b", VStr "http://y/b")]); reflexivity.
Defined.

(** ** More on the rewriters *)

(** X18. [expand] raises the syntax error of a malformed [@list] for every
    truthy value that has no [@list] member, a string under the null
    property apart: no array, no subject, no number and no [true] is ever
    expanded. *)
Theorem expand_rejects_truthy (n : nat) (ctx : obj) (property v : value) :
  truthy v = true -> _isListValue v = false ->
  (property = VNull -> _isString v = false) ->
  expand (1 + n) ctx property v = Throw list_not_array.
Proof.
  intros Ht Hl Hs.
  assert (Hm : get_member v "@list" = VUndef).
  { destruct v; try reflexivity. apply obj_get_absent. exact Hl. }
  assert (Hp : (match property with VNull => true | _ => false end)
               && _isString v = false).
  { destruct property; try reflexivity. apply Hs. reflexivity. }
  destruct v; try discriminate Ht;
    cbn [expand Nat.add]; rewrite Hp; rewrite Ht;
    rewrite ?orb_true_r; cbn [orb]; rewrite Hm; reflexivity.
Qed.

Lemma expand_rejects_truthy_witness :
  expand 1 name_context (VStr "name") (VArr [VStr "Bob"])
  = Throw list_not_array.
Proof.
  apply (expand_rejects_truthy 0 name_context (VStr "name")
           (VArr [VStr "Bob"])); [reflexivity | reflexivity | discriminate].
Defined.

Lemma compact_scalar (n : nat) (ctx : obj) (property v : value) :
  is_scalar v = true -> compact (2 + n) ctx property v = Ret v.
Proof. destruct v; try discriminate; reflexivity. Qed.

Lemma scalar_not_array (v : value) : is_scalar v = true -> _isArray v = false.
Proof. destruct v; try discriminate; reflexivity. Qed.

Lemma compact_scalars_loop (n : nat) (ctx : obj) (property : value)
    (l acc : list value) :
  forallb is_scalar l = true ->
  foldM (fun (rval : list value) (v : value) =>
           if _isArray v then Throw array_of_arrays
           else c <- compact (2 + n) ctx property v ;; Ret (rval ++ [c]))
        l acc
  = Ret (acc ++ l).
Proof.
  revert acc. induction l as [| v l IH]; intros acc H; cbn [foldM].
  - rewrite app_nil_r. reflexivity.
  - cbn [forallb] in H. apply andb_true_iff in H as [Hv Hl].
    rewrite (scalar_not_array v Hv), (compact_scalar n ctx property v Hv).
    cbn [bind]. rewrite (IH _ Hl), <- app_assoc. reflexivity.
Qed.

(** X19. Let the property be null or a string, and let its name be neither
    a key of the context nor a member name of [Object.prototype].
    [compact] returns an array of booleans, numbers and strings as it is,
    and each such value on its own as it is. *)
Theorem compact_scalars_unchanged (n : nat) (ctx : obj) (property : value)
    (key : string) (l : list value) :
  is_property property = true -> js_to_string property = Ret key ->
  obj_has ctx key = false -> inherited key = false ->
  forallb is_scalar l = true ->
  compact (3 + n) ctx property (VArr l) = Ret (VArr l) /\
  forall v, In v l -> compact (3 + n) ctx property v = Ret v.
Proof.
  intros _ Hk Hc _ Hl. split.
  - change (3 + n) with (S (2 + n)). cbn [compact _isListValue _isArray orb].
    rewrite (compact_scalars_loop n ctx property l [] Hl). cbn [bind app].
    unfold getContextValue, getContextValue_with. rewrite Hk. cbn [bind].
    rewrite Hc. reflexivity.
  - intros v Hv. rewrite forallb_forall in Hl.
    apply (compact_scalar (S n) ctx property v (Hl v Hv)).
Qed.

Lemma compact_scalars_unchanged_witness :
  compact 3 name_context (VStr "http://x/age") (VArr [VNum 1; VStr "two"])
  = Ret (VArr [VNum 1; VStr "two"]) /\
  forall v, In v [VNum 1; VStr "two"] ->
            compact 3 name_context (VStr "http://x/age") v = Ret v.
Proof.
  apply (compact_scalars_unchanged 0 name_context (VStr "http://x/age")
           "http://x/age" [VNum 1; VStr "two"]); reflexivity.
Defined.

Lemma compact_nested_loop (n : nat) (ctx : obj) (property : value)
    (pre : list value) (x : list value) (post acc : list value) :
  forallb is_scalar pre = true ->
  foldM (fun (rval : list value) (v : value) =>
           if _isArray v then Throw array_of_arrays
           else c <- compact (2 + n) ctx property v ;; Ret (rval ++ [c]))
        (pre ++ VArr x :: post) acc
  = Throw array_of_arrays.
Proof.
  revert acc. induction pre as [| v pre IH]; intros acc H; cbn [foldM app].
  - reflexivity.
  - cbn [forallb] in H. apply andb_true_iff in H as [Hv Hl].
    rewrite (scalar_not_array v Hv), (compact_scalar n ctx property v Hv).
    cbn [bind]. apply IH. exact Hl.
Qed.

(** X20. [compact] raises the syntax error for arrays of arrays on every
    array that holds an array after any number of booleans, numbers and
    strings, also inside [@list]. *)
Theorem compact_nested_array (n : nat) (ctx : obj) (property : value)
    (pre x post : list value) :
  forallb is_scalar pre = true ->
  compact (3 + n) ctx property (VArr (pre ++ VArr x :: post))
  = Throw array_of_arrays /\
  compact (3 + n) ctx property
    (VObj [("@list", VArr (pre ++ VArr x :: post))])
  = Throw array_of_arrays.
Proof.
  intros H. split.
  - change (3 + n) with (S (2 + n)). cbn [compact _isListValue _isArray orb].
    rewrite (compact_nested_loop n ctx property pre x post [] H).
    reflexivity.
  - change (3 + n) with (S (2 + n)).
    cbn [compact _isListValue _isArray orb obj_has get_member obj_get].
    cbn [String.eqb Ascii.eqb Bool.eqb orb].
    rewrite (compact_nested_loop n ctx property pre x post [] H).
    reflexivity.
Qed.

Lemma compact_nested_array_witness :
  compact 3 [] VNull (VArr [VNum 1; VArr [VNum 1]]) = Throw array_of_arrays /\
  compact 3 [] VNull (VObj [("@list", VArr [VNum 1; VArr [VNum 1]])])
  = Throw array_of_arrays.
Proof.
  apply (compact_nested_array 0 [] VNull [VNum 1] [VNum 1] []). reflexivity.
Defined.

(** ** The value coercers *)

Lemma colon_differs (s w : string) (idx : nat) :
  index_of_colon s = Some idx -> index_of_colon w = None -> (s =? w) = false.
Proof.
  intros Hs Hw. destruct (String.eqb_spec s w) as [-> | _]; [| reflexivity].
  congruence.
Qed.

Lemma first_term_for_exists (ctx : obj) (iri k : string) (v : value) :
  In (k, v) ctx -> maps_to iri v = true ->
  exists key, first_term_for ctx iri = Some key.
Proof.
  induction ctx as [| [k' v'] ctx IH]; [intros [] |].
  cbn [first_term_for]. intros [[= -> ->] | Hin] Hm.
  - rewrite Hm. eauto.
  - destruct (maps_to iri v'); eauto.
Qed.

Lemma getContextValue_string_term (f : nat) (ctx : obj) (key s type : string) :
  unique_keys ctx = true -> In (key, VStr s) ctx -> (type =? "@id") = false ->
  getContextValue f ctx (VStr key) type true = Throw ReferenceError.
Proof.
  intros Hu Hin Ht. unfold getContextValue, getContextValue_with.
  cbn [js_to_string bind].
  rewrite (In_obj_has _ _ _ Hin), (obj_get_In _ _ _ Hu Hin), Ht.
  reflexivity.
Qed.

(* the term that [_compactIri] finds for the IRI of a term *)
Lemma compactIri_of_term_iri (n : nat) (ctx : obj) (k s : string) :
  term_context ctx = true -> In (k, VStr s) ctx ->
  exists key,
    In (key, VStr s) ctx /\
    _compactIri (2 + n) ctx (VStr s) = Ret (VStr key).
Proof.
  intros Hc Hin. destruct (term_context_spec ctx Hc) as (Hp & _ & _).
  destruct (first_term_for_exists ctx s k (VStr s) Hin) as [key Hf].
  { cbn [maps_to]. apply String.eqb_refl. }
  exists key. split; [| apply first_term_is_compact_form; assumption].
  destruct (first_term_for_Some _ _ _ Hf) as (v & Hv & Hm).
  destruct (is_iri_in_string ctx v (proj2 Hp key v Hv)) as (c & i & -> & _).
  cbn [maps_to] in Hm. apply String.eqb_eq in Hm. subst c. exact Hv.
Qed.

(** X21. Take a context with unique keys, each a term (not empty, not
    starting with '@' or a digit, without a colon, not a member name of
    [Object.prototype]), in which every entry is a string with a colon
    whose prefix is neither a key of the context nor such a member name.
    Under a key of the context [expandValue] raises a ReferenceError for
    every value, and [compactValue] for every map none of whose keys is
    such a member name: the lookup of the term's [@type] reaches a [throw]
    whose arguments name an undeclared variable. *)
Theorem coercers_string_term (n : nat) (ctx : obj) (k s : string)
    (v : value) (m : obj) :
  term_context ctx = true -> ordinary_context ctx = true ->
  In (k, VStr s) ctx -> own_keys m = true ->
  expandValue (4 + n) ctx (VStr k) v = Throw ReferenceError /\
  compactValue (4 + n) ctx (VStr k) (VObj m) = Throw ReferenceError.
Proof.
  intros Hc _ Hin _.
  destruct (term_context_spec ctx Hc) as (Hp & Hic & Hkeys).
  destruct (is_iri_in_string ctx _ (proj2 Hp k _ Hin))
    as (s' & idx & [= <-] & Hs & _).
  pose proof (term_expands_to_iri (S n) ctx k s Hic Hin (proj2 (Hkeys _ _ Hin)))
    as He.
  destruct (compactIri_of_term_iri (2 + n) ctx k s Hc Hin) as (key & Hk & Hci).
  pose proof (getContextValue_string_term (4 + n) ctx key s "@type"
                (proj1 Hp) Hk eq_refl) as Hg.
  assert (Hid : is_id_or_type (VStr s) = false).
  { cbn [is_id_or_type].
    rewrite (colon_differs s "@id" idx Hs eq_refl).
    rewrite (colon_differs s "@type" idx Hs eq_refl). reflexivity. }
  split.
  - unfold expandValue.
    change (4 + n) with (3 + S n) at 1. rewrite He. cbn [bind].
    rewrite Hid.
    change (4 + n) with (2 + (2 + n)) at 1. rewrite Hci. cbn [bind].
    rewrite Hg. reflexivity.
  - unfold compactValue.
    change (4 + n) with (3 + S n) at 1. rewrite He. cbn [bind].
    rewrite Hid.
    change (4 + n) with (2 + (2 + n)) at 1. rewrite Hci. cbn [bind].
    rewrite Hg. reflexivity.
Qed.

Lemma coercers_string_term_witness :
  expandValue 4 name_context (VStr "name") (VStr "Bob")
  = Throw ReferenceError /\
  compactValue 4 name_context (VStr "name") (VObj [("@value", VStr "Bob")])
  = Throw ReferenceError.
Proof.
  apply (coercers_string_term 0 name_context "name" "http://x/name"
           (VStr "Bob") [("@value", VStr "Bob")]);
    [reflexivity | reflexivity | left; reflexivity | reflexivity].
Defined.

(* one key that survives the drop test: the turn of the loop of [compact]
   as far as the lookup of [@container] *)
Lemma compact_subject_container_error (f : nat) (ctx : obj) (s key : string)
    (v e : value) (idx : nat) :
  index_of_colon s = Some idx -> _isAbsoluteIri s = true ->
  _compactIri f ctx (VStr s) = Ret (VStr key) ->
  compact f ctx (VStr s) v = Ret v ->
  getContextValue f ctx (VStr key) "@container" true = Throw e ->
  compact (S f) ctx VNull (VObj [(s, v)]) = Throw e.
Proof.
  intros Hs Habs Hci Hcs Hg.
  assert (Hkw : forall w, index_of_colon w = None ->
                          obj_has [(s, v)] w = false).
  { intros w Hw. cbn [obj_has]. rewrite (colon_differs s w idx Hs Hw).
    reflexivity. }
  cbn [compact _isListValue _isArray orb _isSubject].
  rewrite !Hkw by reflexivity.
  cbn [orb negb obj_keys map List.length Nat.ltb Nat.leb foldM fst snd].
  rewrite (colon_differs s "@context" idx Hs eq_refl), Habs.
  cbn [negb andb getContextValue1 js_or truthy].
  rewrite Hci. cbn [bind]. rewrite Hcs. cbn [bind]. rewrite Hg.
  reflexivity.
Qed.

(** X22. Take a context with unique keys, each a term (not empty, not
    starting with '@' or a digit, without a colon, not a member name of
    [Object.prototype]), in which every entry is a string with a colon
    whose prefix is neither a key of the context nor such a member name.
    [compact] cannot shorten a property to a key of such a context: for a
    subject whose single key is an entry of the context that is an
    absolute IRI, with a boolean, a number or a string as value, it raises
    a ReferenceError when it looks up the term's [@container]. *)
Theorem compact_string_term (n : nat) (ctx : obj) (k s : string) (v : value) :
  term_context ctx = true -> ordinary_context ctx = true ->
  In (k, VStr s) ctx ->
  _isAbsoluteIri s = true -> is_scalar v = true ->
  compact (5 + n) ctx VNull (VObj [(s, v)]) = Throw ReferenceError.
Proof.
  intros Hc _ Hin Habs Hv.
  destruct (term_context_spec ctx Hc) as (Hp & Hic & Hkeys).
  destruct (is_iri_in_string ctx _ (proj2 Hp k _ Hin))
    as (s' & idx & [= <-] & Hs & _).
  destruct (compactIri_of_term_iri (2 + n) ctx k s Hc Hin) as (key & Hk & Hci).
  apply (compact_subject_container_error (4 + n) ctx s key v ReferenceError
           idx Hs Habs Hci).
  - apply (compact_scalar (2 + n) ctx (VStr s) v Hv).
  - apply (getContextValue_string_term (4 + n) ctx key s "@container"
             (proj1 Hp) Hk eq_refl).
Qed.

Lemma compact_string_term_witness :
  compact 5 name_context VNull (VObj [("http://x/name", VStr "Bob")])
  = Throw ReferenceError.
Proof.
  apply (compact_string_term 0 name_context "name" "http://x/name"
           (VStr "Bob"));
    [reflexivity | reflexivity | left; reflexivity | reflexivity
    | reflexivity].
Defined.

Lemma keyword_of_alias_builtin (p : string) :
  keyword_of_alias builtin_keywords p
  = if obj_has builtin_keywords p then Some p else None.
Proof.
  unfold builtin_keywords. cbn [keyword_of_alias obj_has].
  repeat match goal with
         | |- context [String.eqb p ?a] => rewrite (String.eqb_sym p a)
         end.
  repeat match goal with
         | |- context [String.eqb ?a p] =>
             destruct (String.eqb_spec a p) as [<- | _]; [reflexivity |]
         end.
  reflexivity.
Qed.

Lemma expandTerm_deep_keyword (f : nat) (ctx : obj) (p : string) :
  index_of_colon p = None -> obj_has ctx p = false ->
  _getKeywords ctx = builtin_keywords ->
  _expandTerm (S f) ctx (VStr p) true = Ret (VStr p).
Proof.
  intros Hc Hp Hk. cbn [_expandTerm]. rewrite Hc, Hp, Hk.
  rewrite keyword_of_alias_builtin.
  destruct (obj_has builtin_keywords p); reflexivity.
Qed.

(* a string that is not a key and that no alias stands for expands to
   itself *)
Lemma expandTerm_unknown (n : nat) (ctx : obj) (p : string) :
  index_of_colon p = None -> obj_has ctx p = false ->
  _getKeywords ctx = builtin_keywords ->
  _expandTerm (2 + n) ctx (VStr p) false = Ret (VStr p).
Proof.
  intros Hc Hp Hk. change (2 + n) with (S (S n)).
  remember (S n) as f eqn:Ef. cbn [_expandTerm]. rewrite Hc, Hp, Hk.
  rewrite keyword_of_alias_builtin.
  assert (Hloop : expand_loop f (fun r => _expandTerm f ctx r true) ctx
                    (VStr p) [] VNull = Ret (VStr p)).
  { subst f. apply expand_loop_stable.
    apply (expandTerm_deep_keyword n ctx p Hc Hp Hk). }
  destruct (obj_has builtin_keywords p); cbn [bind]; exact Hloop.
Qed.

Lemma expandTerm_empty_context (n : nat) (p : string) :
  _expandTerm (2 + n) [] (VStr p) false = Ret (VStr p).
Proof.
  destruct (index_of_colon p) as [idx |] eqn:E.
  - apply (absolute_iri_fixed n [] p idx false E). reflexivity.
  - apply (expandTerm_unknown n [] p E); reflexivity.
Qed.

Lemma compactIri_empty_context (f : nat) (p : string) :
  _compactIri f [] (VStr p) = Ret (VStr p).
Proof.
  unfold _compactIri.
  cbn [compact_to_term compact_to_prefix bind js_to_string].
  change (_getKeywords []) with builtin_keywords.
  destruct (obj_has builtin_keywords p) eqn:E; [| reflexivity].
  rewrite (builtin_keyword_identity p E). reflexivity.
Qed.

(** X23. With an empty context the expanding coercer returns every value
    as it is, under every property other than [@id] and [@type] that is
    not a member name of [Object.prototype] and has no such name before its
    first colon. *)
Theorem expandValue_empty_context (n : nat) (p : string) (v : value) :
  is_id_or_type (VStr p) = false -> own_name p = true ->
  expandValue (2 + n) [] (VStr p) v = Ret v.
Proof.
  intros Hp _. unfold expandValue.
  rewrite (expandTerm_empty_context n p). cbn [bind]. rewrite Hp.
  rewrite compactIri_empty_context. reflexivity.
Qed.

Lemma expandValue_empty_context_witness :
  expandValue 2 [] (VStr "http://x/name") (VStr "Bob") = Ret (VStr "Bob").
Proof.
  apply (expandValue_empty_context 0 "http://x/name" (VStr "Bob"));
    reflexivity.
Defined.

Lemma alias_step_iri_entries (l acc : obj) (ctx : obj) :
  plain ctx -> incl l ctx -> fold_left alias_step l acc = acc.
Proof.
  intros Hp. revert acc.
  induction l as [| [k v] l IH]; intros acc Hincl; [reflexivity |].
  cbn [fold_left].
  assert (Hin : In (k, v) ctx) by (apply Hincl; left; reflexivity).
  destruct (is_iri_in_string ctx v (proj2 Hp k v Hin))
    as (s & idx & -> & Hs & _).
  assert (Hb : obj_has builtin_keywords s = false).
  { destruct (obj_has builtin_keywords s) eqn:E; [| reflexivity].
    apply builtin_keyword_no_colon in E. congruence. }
  unfold alias_step at 2. cbn [snd]. rewrite Hb, andb_false_r.
  apply IH. intros x Hx. apply Hincl. right. exact Hx.
Qed.

Lemma getKeywords_iri_context (ctx : obj) :
  plain ctx -> _getKeywords ctx = builtin_keywords.
Proof.
  intros Hp. rewrite getKeywords_overlay.
  rewrite (alias_step_iri_entries ctx [] ctx Hp (incl_refl ctx)).
  reflexivity.
Qed.

Lemma term_context_no_keyword_key (ctx : obj) (w : string) :
  term_context ctx = true -> is_term_key w = false -> obj_has ctx w = false.
Proof.
  intros Hc Hw. destruct (term_context_spec ctx Hc) as (_ & _ & Hkeys).
  destruct (obj_has ctx w) eqn:E; [| reflexivity].
  apply obj_has_get_In in E. apply Hkeys in E. destruct E as [E _].
  congruence.
Qed.

(** X24. Take a context with unique keys, each a term (not empty, not
    starting with '@' or a digit, without a colon, not a member name of
    [Object.prototype]), in which every entry is a string with a colon
    whose prefix is neither a key of the context nor such a member name.
    The expanding coercer treats the value of [@id] and of [@type] as a
    term: a key of the context is replaced by its entry. *)
Theorem expandValue_id_term (n : nat) (ctx : obj) (prop k s : string) :
  term_context ctx = true -> ordinary_context ctx = true ->
  In (k, VStr s) ctx ->
  prop = "@id" \/ prop = "@type" ->
  expandValue (3 + n) ctx (VStr prop) (VStr k) = Ret (VStr s).
Proof.
  intros Hc _ Hin Hprop.
  destruct (term_context_spec ctx Hc) as (Hp & Hic & Hkeys).
  assert (He : _expandTerm (3 + n) ctx (VStr prop) false = Ret (VStr prop)).
  { apply (expandTerm_unknown (S n) ctx prop).
    - destruct Hprop as [-> | ->]; reflexivity.
    - apply (term_context_no_keyword_key ctx prop Hc).
      destruct Hprop as [-> | ->]; reflexivity.
    - apply getKeywords_iri_context. exact Hp. }
  unfold expandValue. rewrite He. cbn [bind].
  replace (is_id_or_type (VStr prop)) with true
    by (destruct Hprop as [-> | ->]; reflexivity).
  apply (term_expands_to_iri n ctx k s Hic Hin (proj2 (Hkeys _ _ Hin))).
Qed.

Lemma expandValue_id_term_witness :
  expandValue 3 name_context (VStr "@type") (VStr "name")
  = Ret (VStr "http://x/name").
Proof.
  apply (expandValue_id_term 0 name_context "@type" "name" "http://x/name");
    [reflexivity | reflexivity | left; reflexivity | right; reflexivity].
Defined.

(** ** The URL pass *)

Lemma obj_set_same (m : obj) (k : string) :
  obj_has m k = true -> obj_set m k (obj_get m k) = m.
Proof.
  induction m as [| [k' v] m IH]; simpl; [discriminate |].
  destruct (String.eqb_spec k' k) as [-> | _]; simpl; [reflexivity |].
  intros H. rewrite (IH H). reflexivity.
Qed.

Lemma findUrls_array_discovery (ctx : list value) (urls : obj) :
  fst (findUrls_array false ctx urls) = ctx.
Proof.
  revert urls. induction ctx as [| c ctx IH]; intros urls; [reflexivity |].
  cbn [findUrls_array].
  destruct c;
    try (specialize (IH urls); destruct (findUrls_array false ctx urls);
         cbn [fst] in *; rewrite IH; reflexivity).
  destruct (_isString (VStr s)).
  - specialize (IH (obj_set urls s (VObj []))).
    destruct (findUrls_array false ctx (obj_set urls s (VObj []))).
    cbn [fst] in *. rewrite IH. reflexivity.
  - specialize (IH urls). destruct (findUrls_array false ctx urls).
    cbn [fst] in *. rewrite IH. reflexivity.
Qed.

Lemma findUrls_array_replacement (ctx : list value) (urls : obj) :
  snd (findUrls_array true ctx urls) = urls.
Proof.
  induction ctx as [| c ctx IH]; [reflexivity |].
  cbn [findUrls_array].
  destruct c; try (destruct (findUrls_array true ctx urls); exact IH).
  destruct (_isString (VStr s));
    destruct (findUrls_array true ctx urls); exact IH.
Qed.

Lemma findUrls_each_discovery (l : list value) :
  Forall (fun x => forall u, fst (findUrls false x u) = x) l ->
  forall urls,
    fst ((fix each (l : list value) (urls : obj) : list value * obj :=
            match l with
            | [] => ([], urls)
            | x :: xs =>
                let (x', urls1) := findUrls false x urls in
                let (xs', urls2) := each xs urls1 in
                (x' :: xs', urls2)
            end) l urls) = l.
Proof.
  induction 1 as [| x l Hx _ IHl]; intros u; [reflexivity |].
  specialize (Hx u). destruct (findUrls false x u) as [x' u1].
  cbn [fst] in Hx. subst x'. specialize (IHl u1).
  match goal with
  | H : fst ?t = l |- _ => destruct t as [xs' u2]
  end.
  cbn [fst] in *. rewrite IHl. reflexivity.
Qed.

Lemma findUrls_each_replacement (l : list value) :
  Forall (fun x => forall u, snd (findUrls true x u) = u) l ->
  forall urls,
    snd ((fix each (l : list value) (urls : obj) : list value * obj :=
            match l with
            | [] => ([], urls)
            | x :: xs =>
                let (x', urls1) := findUrls true x urls in
                let (xs', urls2) := each xs urls1 in
                (x' :: xs', urls2)
            end) l urls) = urls.
Proof.
  induction 1 as [| x l Hx _ IHl]; intros u; [reflexivity |].
  specialize (Hx u). destruct (findUrls true x u) as [x' u1].
  cbn [snd] in Hx. subst u1. specialize (IHl u).
  match goal with
  | H : snd ?t = u |- _ => destruct t as [xs' u2]
  end.
  cbn [snd] in *. exact IHl.
Qed.

(** X25. The discovery walk of [findUrls] returns the document as it is,
    and the replacement walk returns the table of URLs as it is. *)
Theorem findUrls_readonly (input : value) (urls : obj) :
  fst (findUrls false input urls) = input /\
  snd (findUrls true input urls) = urls.
Proof.
  revert urls. induction input using value_ind_strong; intros urls;
    try (split; reflexivity).
  - (* arrays *)
    assert (H1 : Forall (fun x => forall u, fst (findUrls false x u) = x) l)
      by (eapply Forall_impl; [| exact H]; intros x Hx u; apply Hx).
    assert (H2 : Forall (fun x => forall u, snd (findUrls true x u) = u) l)
      by (eapply Forall_impl; [| exact H]; intros x Hx u; apply Hx).
    pose proof (findUrls_each_discovery l H1 urls) as Hd.
    pose proof (findUrls_each_replacement l H2 urls) as Hr.
    cbn [findUrls]. split.
    + match type of Hd with
      | fst ?t = l => destruct t as [l' u']
      end.
      cbn [fst] in *. rewrite Hd. reflexivity.
    + match type of Hr with
      | snd ?t = urls => destruct t as [l' u']
      end.
      exact Hr.
  - (* objects *)
    cbn [findUrls]. destruct (obj_has m "@context") eqn:Hc;
      [| split; reflexivity].
    destruct (obj_get m "@context") eqn:Hg; try (split; reflexivity).
    + destruct (_isString (VStr s)); split; reflexivity.
    + pose proof (findUrls_array_discovery l urls) as Hd.
      pose proof (findUrls_array_replacement l urls) as Hr.
      split.
      * destruct (findUrls_array false l urls) as [l' u].
        cbn [fst] in *. subst l'. rewrite <- Hg, (obj_set_same m _ Hc).
        reflexivity.
      * destruct (findUrls_array true l urls) as [l' u]. exact Hr.
Qed.

Lemma findUrls_array_free (replace : bool) (ctx : list value) (urls : obj) :
  existsb _isString ctx = false ->
  findUrls_array replace ctx urls = (ctx, urls).
Proof.
  induction ctx as [| c ctx IH]; [reflexivity |].
  cbn [existsb findUrls_array]. rewrite orb_false_iff. intros [Hc Hl].
  specialize (IH Hl).
  destruct c; try (rewrite IH; reflexivity).
  rewrite Hc, IH. reflexivity.
Qed.

Lemma findUrls_free (replace : bool) (input : value) :
  url_free input = true ->
  forall urls, findUrls replace input urls = (input, urls).
Proof.
  induction input using value_ind_strong; intros Hf urls; try reflexivity.
  - cbn [findUrls url_free] in *.
    assert (He : forall urls,
               (fix each (l : list value) (urls : obj) :=
                  match l with
                  | [] => ([], urls)
                  | x :: xs =>
                      let (x', urls1) := findUrls replace x urls in
                      let (xs', urls2) := each xs urls1 in
                      (x' :: xs', urls2)
                  end) l urls = (l, urls)).
    { induction H as [| x l Hx _ IHl]; intros u; [reflexivity |].
      cbn [forallb] in Hf. apply andb_true_iff in Hf as [Hfx Hfl].
      rewrite (Hx Hfx u), (IHl Hfl u). reflexivity. }
    rewrite He. reflexivity.
  - cbn [findUrls url_free] in *.
    destruct (obj_has m "@context") eqn:Hc; [| reflexivity].
    destruct (obj_get m "@context") eqn:Hg; try reflexivity.
    + apply negb_true_iff in Hf. rewrite Hf. reflexivity.
    + apply negb_true_iff in Hf.
      rewrite (findUrls_array_free replace l urls Hf).
      rewrite <- Hg, (obj_set_same m _ Hc). reflexivity.
Qed.

Section UrlPass.

Variable JSON_parse : string -> option value.

(** X26. For a document in which no @context that the walk looks at holds
    a URL string, [_resolveUrls] calls its callback exactly once, with no
    error and the document itself, and never calls the resolver. *)
Theorem resolveUrls_url_free (input : value)
    (resolver : string -> resolution) (log : list call) :
  url_free input = true ->
  _resolveUrls JSON_parse input resolver (Some user_callback) log
  = (Ret tt, log ++ [[VNull; input]]).
Proof.
  intros Hf. unfold _resolveUrls.
  rewrite (findUrls_free false input Hf []). reflexivity.
Qed.

Lemma pfold_malformed (resolver : string -> resolution)
    (callback : option callback_fn) (keys : list string) :
  forallb (fun u => negb (url_regex_test u)) keys = true ->
  forall st log,
  exists st',
    pfold (resolve_one JSON_parse resolver callback) keys st log
    = (Ret st', log) /\ st_later st' = st_later st.
Proof.
  induction keys as [| u keys IH]; intros H st log.
  - exists st. split; reflexivity.
  - cbn [forallb] in H. apply andb_true_iff in H as [Hu Hk].
    cbn [pfold]. unfold pbind, resolve_one at 1. rewrite Hu.
    cbn [pret st_input st_urls st_count st_errors st_url st_later].
    match goal with
    | |- context [pfold _ keys ?s log] =>
        destruct (IH Hk s log) as (st' & Hrun & Hl)
    end.
    exists st'. split; [exact Hrun | exact Hl].
Qed.

(** X27. Let no map that the walk inspects (the document, or a member of
    its arrays) have a key that is a member name of [Object.prototype].
    When the discovery walk collects at least one string, none of them
    such a name, and every collected string fails the URL test,
    [_resolveUrls] returns without calling its callback or the resolver. *)
Theorem resolveUrls_all_malformed (input : value)
    (resolver : string -> resolution) (callback : option callback_fn)
    (log : list call) (u : string) (us : list string) :
  inspected_own input = true ->
  obj_keys (snd (findUrls false input [])) = u :: us ->
  forallb (fun u => negb (inherited u)) (u :: us) = true ->
  forallb (fun u => negb (url_regex_test u)) (u :: us) = true ->
  _resolveUrls JSON_parse input resolver callback log = (Ret tt, log).
Proof.
  intros _ Hk _ Hbad. unfold _resolveUrls.
  cbn [st_count]. rewrite Hk. cbn [List.length].
  replace (Z.of_nat (S (List.length us)) =? 0)%Z with false
    by (symmetry; apply Z.eqb_neq; lia).
  unfold pbind at 1.
  match goal with
  | |- context [pfold (resolve_one _ _ _) _ ?s log] =>
      destruct (pfold_malformed resolver callback (u :: us) Hbad s log)
        as (st' & Hrun & Hl)
  end.
  rewrite Hrun. cbn [st_later] in Hl. rewrite Hl. reflexivity.
Qed.

End UrlPass.

Lemma resolveUrls_url_free_witness :
  _resolveUrls (fun _ => None) E1_document (fun _ => Resolves VNull VNull)
    (Some user_callback) [] = (Ret tt, [] ++ [[VNull; E1_document]]).
Proof.
  apply (resolveUrls_url_free (fun _ => None) E1_document (fun _ => Resolves VNull VNull) []).
  reflexivity.
Defined.

Lemma resolveUrls_all_malformed_witness :
  _resolveUrls (fun _ => None)
    (VObj [("@context", VArr [VStr "ftp://a"; VStr "not a url"])])
    jsonld_urlResolver (Some user_callback) [] = (Ret tt, []).
Proof.
  apply (resolveUrls_all_malformed (fun _ => None)
           (VObj [("@context", VArr [VStr "ftp://a"; VStr "not a url"])])
           jsonld_urlResolver (Some user_callback) []
           "ftp://a" ["not a url"]); reflexivity.
Defined.

Lemma url_test_nonempty (url : string) :
  url_regex_test url = true -> (url =? "") = false.
Proof. destruct url; [discriminate | reflexivity]. Qed.

Section UrlPassOne.

Variable JSON_parse : string -> option value.

(** X28. Take a document, a map none of whose keys is a member name of
    [Object.prototype], whose @context is one well-formed URL, and a
    resolver that answers at once.  An answer with an error makes
    [_resolveUrls] call its callback once with a ContextUrlError listing
    that error; an answer with no error and a map without such a key makes
    it call the callback once with the document in which the URL is
    replaced by the [@context] member of the map (an empty map when there
    is none). *)
Theorem resolveUrls_single_url (m : obj) (url : string)
    (resolver : string -> resolution) (err ctx : value) (log : list call) :
  own_keys m = true ->
  obj_get m "@context" = VStr url -> url_regex_test url = true ->
  resolver url = Resolves err ctx ->
  (truthy err = true ->
   _resolveUrls JSON_parse (VObj m) resolver (Some user_callback) log
   = (Ret tt, log ++ [[ContextUrlError [err]]])) /\
  (forall remote, truthy err = false -> ctx = VObj remote ->
   own_keys remote = true ->
   _resolveUrls JSON_parse (VObj m) resolver (Some user_callback) log
   = (Ret tt,
      log ++ [[VNull;
               VObj (obj_set m "@context"
                       (js_or (obj_get remote "@context") (VObj [])))]])).
Proof.
  intros _ Hg Hu Hr.
  assert (Hc : obj_has m "@context" = true).
  { apply (In_obj_has m "@context" (VStr url)).
    apply obj_get_defined; [exact Hg | discriminate]. }
  pose proof (url_test_nonempty url Hu) as Hne.
  assert (Hfind : findUrls false (VObj m) []
                  = (VObj m, [(url, VObj [])])).
  { cbn [findUrls]. rewrite Hc, Hg. cbn [_isString]. rewrite Hne.
    reflexivity. }
  assert (Hrepl : forall x, fst (findUrls true (VObj m) [(url, x)])
                            = VObj (obj_set m "@context" x)).
  { intros x. cbn [findUrls]. rewrite Hc, Hg. cbn [_isString]. rewrite Hne.
    cbn [negb fst obj_get]. rewrite String.eqb_refl. reflexivity. }
  split.
  - intros He. unfold _resolveUrls. rewrite Hfind.
    cbn [snd obj_keys map fst List.length Z.of_nat st_count Z.eqb
         Pos.of_succ_nat pfold].
    unfold pbind, resolve_one. rewrite Hu, Hr.
    cbn [negb st_input st_urls st_count st_errors st_url st_later].
    unfold resolved.
    repeat first
      [ rewrite He
      | progress cbn [negb andb st_input st_urls st_count st_errors st_url
                      st_later Z.sub Z.add Z.opp Z.pos_sub Z.eqb app] ].
    reflexivity.
  - intros remote He -> _. unfold _resolveUrls. rewrite Hfind.
    cbn [snd obj_keys map fst List.length Z.of_nat st_count Z.eqb
         Pos.of_succ_nat pfold].
    unfold pbind, resolve_one. rewrite Hu, Hr.
    cbn [negb st_input st_urls st_count st_errors st_url st_later].
    unfold resolved.
    repeat first
      [ rewrite He
      | rewrite String.eqb_refl
      | rewrite Hrepl
      | progress cbn [negb andb _isString _isObject get_member obj_set
                      st_input st_urls st_count st_errors st_url st_later
                      Z.sub Z.add Z.opp Z.pos_sub Z.eqb app] ].
    reflexivity.
Qed.


(** ** The stubs *)

Lemma preserves_resolve_one_valid (P : list call -> Prop)
    (resolver : string -> resolution) (callback : option callback_fn)
    (st : resolve_state) (url : string) :
  callback_preserves P callback -> valid_resolver_preserves P resolver ->
  preserves P (resolve_one JSON_parse resolver callback st url).
Proof.
  intros Hc Hr. unfold resolve_one.
  destruct (url_regex_test url) eqn:Hu; cbn [negb]; [| apply preserves_pret].
  specialize (Hr url Hu).
  destruct (resolver url) as [err ctx | err ctx | act].
  - apply preserves_resolved. exact Hc.
  - apply preserves_pret.
  - apply preserves_pbind; [exact Hr | intros _; apply preserves_pret].
Qed.

Lemma preserves_resolveUrls_valid (P : list call -> Prop) (input : value)
    (resolver : string -> resolution) (callback : option callback_fn) :
  callback_preserves P callback -> valid_resolver_preserves P resolver ->
  preserves P (_resolveUrls JSON_parse input resolver callback).
Proof.
  intros Hc Hr. unfold _resolveUrls.
  match goal with
  | |- context [if ?c then _ else _] => destruct c
  end.
  - apply preserves_finished. exact Hc.
  - apply preserves_pbind.
    + apply preserves_pfold. intros b a.
      apply preserves_resolve_one_valid; assumption.
    + intros st. apply preserves_pbind; [| intros _; apply preserves_pret].
      apply preserves_pfold. intros b a.
      apply preserves_resolved. exact Hc.
Qed.

Lemma user_callback_url (url : string) :
  url_regex_test url = true ->
  preserves url_only_calls (user_callback [VStr url]).
Proof.
  intros Hu log H. unfold user_callback. cbn [snd].
  apply Forall_app. split; [exact H |].
  constructor; [| constructor]. exists url. auto.
Qed.

(* a resolver that passes a valid URL on to the caller's callback in the
   place of the error *)
Lemma url_passing_resolver (other : string -> proc unit) :
  valid_resolver_preserves url_only_calls
    (fun url =>
       Runs (if truthy (VStr url) then user_callback [VStr url]
             else other url)).
Proof.
  intros url Hu. cbn [truthy]. rewrite (url_test_nonempty url Hu).
  cbn [negb]. apply user_callback_url. exact Hu.
Qed.

(** X30. Whatever the input, every call that the caller's callback
    receives from [jsonld.normalize], [jsonld.triples], [jsonld.frame] and
    [jsonld.expand] carries a single argument, a string of the input that
    passes the URL test, in the place of the error: the "Not implemented"
    error of the three stubs and the expanded document are never
    delivered. *)
Theorem stubs_never_report (fuel : nat) (input frame : value)
    (options : option value) :
  url_only_calls (snd (jsonld_normalize JSON_parse input user_callback [])) /\
  url_only_calls (snd (jsonld_triples JSON_parse input user_callback [])) /\
  url_only_calls
    (snd (jsonld_frame JSON_parse input frame options user_callback [])) /\
  url_only_calls (snd (jsonld_expand JSON_parse fuel input user_callback [])).
Proof.
  split; [| split; [| split]].
  - apply (preserves_resolveUrls_valid url_only_calls); [exact I | |].
    + apply (url_passing_resolver
               (fun _ => Processor_normalize VFun user_callback)).
    + constructor.
  - apply (preserves_resolveUrls_valid url_only_calls); [exact I | |].
    + apply (url_passing_resolver
               (fun _ => Processor_triples VFun user_callback)).
    + constructor.
  - apply (preserves_resolveUrls_valid url_only_calls); [exact I | |].
    + apply (url_passing_resolver
               (fun _ => _resolveUrls JSON_parse VFun _ None)).
    + constructor.
  - apply (preserves_resolveUrls_valid url_only_calls); [exact I | |].
    + apply (url_passing_resolver
               (fun _ => pbind (plift (expand fuel [] VNull VFun))
                           (fun _ => pret tt))).
    + constructor.
Qed.

End UrlPassOne.

Lemma resolveUrls_single_url_witness :
  _resolveUrls (fun _ => None) E5_document jsonld_urlResolver
    (Some user_callback) []
  = (Ret tt,
     [] ++ [[ContextUrlError
               [JsonLdError
                  "Could not resolve @context URL. URL resolution not implemented."
                  "jsonld.ContextUrlError" VUndef]]]) /\
  _resolveUrls (fun _ => None) E5_document (fun _ => Resolves VNull E5_remote)
    (Some user_callback) []
  = (Ret tt,
     [] ++ [[VNull;
             VObj [("@context", VObj [("t", VStr "http://x/t")]);
                   ("t", VStr "v")]]]).
Proof.
  split.
  - apply (proj1 (resolveUrls_single_url (fun _ => None)
                    [("@context", VStr "http://e/ctx"); ("t", VStr "v")]
                    "http://e/ctx" jsonld_urlResolver _ VUndef []
                    eq_refl eq_refl eq_refl eq_refl)).
    reflexivity.
  - apply (proj2 (resolveUrls_single_url (fun _ => None)
                    [("@context", VStr "http://e/ctx"); ("t", VStr "v")]
                    "http://e/ctx" (fun _ => Resolves VNull E5_remote)
                    VNull E5_remote [] eq_refl eq_refl eq_refl eq_refl)
             [("@context", VObj [("t", VStr "http://x/t")])]);
      reflexivity.
Defined.

